(** * Text scoring system: merge, scoring, validation, cache and orchestration

  A shallow embedding of the Python backend ([backend/app]) and the
  properties its specification states about it.

  Conventions of the embedding.
  - A Python [int] is a [Z]; a Python [float] is a binary64 number,
    Rocq's primitive [float], whose operations round as the hardware
    does.  An [int] that meets a [float] is converted first
    ([float_of_Z]); the counts converted here are lengths of lists.
    The clock ([time.time()], [datetime.now()]) is a rational number
    of seconds; no property below depends on how a time is rounded.
  - The analysed text is a Python [str]: a list of Unicode code points
    ([pystr]).  Messages, dictionary keys and other fixed texts are
    [string]s.
  - A [dict] whose values are summed is a list of pairs in insertion
    order ([dict]), since the order of a float sum matters; the store
    of the cache and the readability metrics are [gmap]s; the [set] of
    seen keys in the merge is a [gset].
  - A call that can raise returns an [outcome]; the trained models and
    remote services (embedding model, rule checker, enrichment API) are
    [Variable]s of the section that uses them. *)

From Stdlib Require Import ZArith NArith QArith Qcanon List Permutation Sorted Ascii.
From Stdlib Require Import Floats Uint63.
From stdpp Require Import gmap strings list sorting.

#[global] Set Warnings "-inexact-float".

Set Default Proof Using "Type".
Local Open Scope Z_scope.

(** ** Python values: strings, floats, exceptions *)

Module Py.

(** A [str] is a sequence of code points. *)
Definition codepoint : Type := N.
Definition pystr : Type := list codepoint.

(** The code points of an ASCII literal. *)
Definition of_string (s : string) : pystr :=
  map N_of_ascii (String.list_ascii_of_string s).

Definition NEWLINE : codepoint := 10%N.
Definition SPACE : codepoint := 32%N.

(** [str.isspace] on one code point, which is also what [str.split()],
    [str.strip()] and the regular expression class [\s] test. *)
Definition isspace (c : codepoint) : bool :=
  ((9 <=? c) && (c <=? 13) || (28 <=? c) && (c <=? 32)
   || (c =? 0x85) || (c =? 0xA0) || (c =? 0x1680)
   || (0x2000 <=? c) && (c <=? 0x200A)
   || (c =? 0x2028) || (c =? 0x2029) || (c =? 0x202F)
   || (c =? 0x205F) || (c =? 0x3000))%N.

(** [text.split()]: the maximal runs of non-whitespace; [cur] is the word
    being read. *)
Fixpoint split_from (cur : pystr) (text : pystr) : list pystr :=
  match text with
  | [] => match cur with [] => [] | _ => [cur] end
  | c :: rest =>
      if isspace c
      then match cur with
           | [] => split_from [] rest
           | _ => cur :: split_from [] rest
           end
      else split_from (cur ++ [c]) rest
  end.

Definition split (text : pystr) : list pystr := split_from [] text.

(** [sep.join(parts)] *)
Fixpoint join (sep : pystr) (parts : list pystr) : pystr :=
  match parts with
  | [] => []
  | [p] => p
  | p :: rest => p ++ sep ++ join sep rest
  end.

(** [text.replace(c, '')] and [text.replace(c, d)] for one-character
    [c] and [d]. *)
Definition remove_char (c : codepoint) (text : pystr) : pystr :=
  filter (λ x, x ≠ c) text.

Definition replace_char (c d : codepoint) (text : pystr) : pystr :=
  map (λ x, if decide (x = c) then d else x) text.

(** [text.lstrip()], [text.rstrip()], [text.strip()] *)
Fixpoint lstrip (text : pystr) : pystr :=
  match text with
  | [] => []
  | c :: rest => if isspace c then lstrip rest else text
  end.

Definition rstrip (text : pystr) : pystr := rev (lstrip (rev text)).

Definition strip (text : pystr) : pystr := rstrip (lstrip text).

(** Truth value of a [str]: non-empty. *)
Definition truthy (text : pystr) : bool :=
  match text with [] => false | _ => true end.

(** [re.split(r'\n\s*\n', text)].  A match starts at a newline and, the
    star being greedy, runs to the last newline of the whitespace run that
    follows it; there is none when that run has no second newline.
    [cur] is the piece being read.  [pend] is [None] outside a candidate
    match; [Some (ws, None)] after a newline followed by the whitespace
    [ws] (newline included) with no second newline yet; and
    [Some (ws, Some tail)] once a second newline was read, [tail] being
    the whitespace read after the last newline. *)
Fixpoint re_split_blank_from (cur : pystr) (pend : option (pystr * option pystr))
    (text : pystr) : list pystr :=
  match text with
  | [] =>
      match pend with
      | None => [cur]
      | Some (ws, None) => [cur ++ ws]
      | Some (_, Some tail) => [cur; tail]
      end
  | c :: rest =>
      match pend with
      | None =>
          if decide (c = NEWLINE)
          then re_split_blank_from cur (Some ([c], None)) rest
          else re_split_blank_from (cur ++ [c]) None rest
      | Some (ws, None) =>
          if decide (c = NEWLINE) then re_split_blank_from cur (Some (ws, Some [])) rest
          else if isspace c then re_split_blank_from cur (Some (ws ++ [c], None)) rest
          else re_split_blank_from (cur ++ ws ++ [c]) None rest
      | Some (ws, Some tail) =>
          if decide (c = NEWLINE) then re_split_blank_from cur (Some (ws, Some [])) rest
          else if isspace c then re_split_blank_from cur (Some (ws, Some (tail ++ [c]))) rest
          else cur :: re_split_blank_from (tail ++ [c]) None rest
      end
  end.

Definition re_split_blank (text : pystr) : list pystr :=
  re_split_blank_from [] None text.

(** A call either returns a value or raises an exception, of which the
    message [str(e)] is kept. *)
Inductive outcome (A : Type) : Type :=
| Returns (a : A)
| Raises (msg : string).
Arguments Returns {A} a.
Arguments Raises {A} msg.

Definition raises {A} (o : outcome A) : Prop := ∃ msg, o = Raises msg.

(** [max(a, b)] and [min(a, b)] on numbers: the first argument is kept
    unless the second is strictly beyond it. *)
Definition max (a b : float) : float := if (a <? b)%float then b else a.
Definition min (a b : float) : float := if (b <? a)%float then b else a.

(** An int as a float, rounded to the nearest binary64 number; the
    magnitude is below 2^63. *)
Definition float_of_Z (z : Z) : float :=
  match z with
  | Z0 => 0%float
  | Z.pos _ => PrimFloat.of_uint63 (Uint63.of_Z z)
  | Z.neg p => (- PrimFloat.of_uint63 (Uint63.of_Z (Z.pos p)))%float
  end.

(** The integer nearest to [m * 2^e * 100], ties to the even one. *)
Definition round_half_even_scaled (m : positive) (e : Z) : Z :=
  let n := Z.pos m * 100 in
  if 0 <=? e then n * 2 ^ e
  else
    let d := 2 ^ (- e) in
    let q := n / d in
    match (2 * (n mod d) ?= d) with
    | Lt => q
    | Gt => q + 1
    | Eq => if Z.even q then q else q + 1
    end.

(** [round(x, 2)]: the exact value of [x] is rounded to two decimals,
    ties to even, and the decimal is converted back to the nearest
    binary64 number.  From 2^46 on the spacing of the binary64 numbers
    exceeds 0.01 and [x] is its own rounding; zeros, infinities and NaN
    are returned as they are. *)
Definition round2 (x : float) : float :=
  match Prim2SF x with
  | S754_finite s m e =>
      if (abs x <? 0x1p46)%float
      then
        let z := round_half_even_scaled m e in
        if z =? 0 then (if s then - 0 else 0)%float
        else if s then (- (float_of_Z z / 100))%float
        else (float_of_Z z / 100)%float
      else x
  | _ => x
  end.

(** What [round2] is held against: [z] is an integer nearest to
    [m * 2^e * 100], and the even one of the two when they are equally
    near.  For a negative [e], with [d = 2^(-e)], the distance of [z]
    from [m * 2^e * 100] is that of [z * d] from [m * 100], divided
    by [d]. *)
Definition nearest_hundredth (m : positive) (e : Z) (z : Z) : Prop :=
  if 0 <=? e then z = Z.pos m * 100 * 2 ^ e
  else
    let d := 2 ^ (- e) in
    2 * Z.abs (Z.pos m * 100 - z * d) <= d
    ∧ (2 * Z.abs (Z.pos m * 100 - z * d) = d → Z.even z = true).

(** A binary64 number with the sign [s], as opposed to a NaN. *)
Definition signed (s : bool) (x : spec_float) : Prop :=
  match x with
  | S754_zero s' | S754_infinity s' | S754_finite s' _ _ => s' = s
  | S754_nan => False
  end.

(** [sum(l)] over floats: from 0, left to right, each addition rounded
    (CPython up to 3.11; later versions carry a compensation term, which
    is zero as long as every partial sum is exact). *)
Definition sum (l : list float) : float := fold_left PrimFloat.add l 0%float.

(** [sum(l)] over ints. *)
Definition sum_int (l : list Z) : Z := fold_left Z.add l 0.

(** [str.replace(old, new)] for a non-empty [old]: the occurrences of
    [old] are replaced from left to right, none overlapping another;
    [skip] counts the characters of a replaced occurrence still to be
    passed over. *)
Fixpoint replace_from (old new : pystr) (skip : nat) (text : pystr) : pystr :=
  match text with
  | [] => []
  | c :: rest =>
      match skip with
      | S k => replace_from old new k rest
      | O =>
          if bool_decide (old `prefix_of` text)
          then new ++ replace_from old new (length old - 1) rest
          else c :: replace_from old new 0 rest
      end
  end.

Definition replace (old new : pystr) (text : pystr) : pystr :=
  replace_from old new 0 text.

(** *** Dictionaries in insertion order *)

Definition dict (V : Type) : Type := list (string * V).

(** [d[k]], when present *)
Fixpoint dict_get {V} (k : string) (d : dict V) : option V :=
  match d with
  | [] => None
  | (k', v) :: d' => if decide (k = k') then Some v else dict_get k d'
  end.

(** [d[k] = v]: an existing key keeps its place, a new one goes last. *)
Fixpoint dict_set {V} (k : string) (v : V) (d : dict V) : dict V :=
  match d with
  | [] => [(k, v)]
  | (k', v') :: d' =>
      if decide (k = k') then (k, v) :: d' else (k', v') :: dict_set k v d'
  end.

(** [d.update(other)] *)
Definition dict_update {V} (d other : dict V) : dict V :=
  fold_left (λ d kv, dict_set (fst kv) (snd kv) d) other d.

(** [d.values()] *)
Definition dict_values {V} (d : dict V) : list V := map snd d.

(** *** The shape of a text: words and gaps

    [weave gaps words] is the text made of the first gap, the first
    word, the second gap, and so on. *)
Fixpoint weave (gaps words : list pystr) : pystr :=
  match gaps, words with
  | g :: gaps', w :: words' => g ++ w ++ weave gaps' words'
  | g :: _, [] => g
  | [], _ => []
  end.

Definition blank (g : pystr) : Prop := Forall (λ c, isspace c = true) g.

Definition word (w : pystr) : Prop := w ≠ [] ∧ Forall (λ c, isspace c = false) w.

(** [gaps] separate [n] words: there are [n + 1] of them, all of
    whitespace, and those between two words are not empty. *)
Definition separates (gaps : list pystr) (n : nat) : Prop :=
  length gaps = S n
  ∧ Forall blank gaps
  ∧ ∀ i g, (0 < i < n)%nat → gaps !! i = Some g → g ≠ [].

(** The gaps of a text whose words are joined by single spaces. *)
Definition single_spaces (n : nat) : list pystr :=
  match n with
  | O => [[]]
  | S k => [] :: replicate k [SPACE] ++ [[]]
  end.

End Py.

(** ** models/schemas.py *)

Module Schemas.

Inductive ErrorType := SPELLING | GRAMMAR | PUNCTUATION | STYLE | CLARITY.

Inductive Severity := LOW | MEDIUM | HIGH | CRITICAL.

#[global] Instance ErrorType_eq_dec : EqDecision ErrorType.
Proof. solve_decision. Defined.

#[global] Instance Severity_eq_dec : EqDecision Severity.
Proof. solve_decision. Defined.

Definition ErrorType_to_nat (t : ErrorType) : nat :=
  match t with
  | SPELLING => 0 | GRAMMAR => 1 | PUNCTUATION => 2 | STYLE => 3 | CLARITY => 4
  end%nat.

Definition ErrorType_of_nat (n : nat) : option ErrorType :=
  match n with
  | 0 => Some SPELLING | 1 => Some GRAMMAR | 2 => Some PUNCTUATION
  | 3 => Some STYLE | 4 => Some CLARITY | _ => None
  end%nat.

#[global] Instance ErrorType_countable : Countable ErrorType.
Proof.
  apply (inj_countable ErrorType_to_nat ErrorType_of_nat).
  intros []; reflexivity.
Defined.

(** [Error]: [position] is a two-element list of ints, kept as the pair
    (start, end). *)
Record Error := mkError {
  type : ErrorType;
  severity : Severity;
  position : Z * Z;
  message : string;
  suggestion : option string;
  explanation : option string;
  confidence : float
}.

(** [GrammarScore.details]: of the dictionary, the entries kept are the
    per-type counts and the lexical diversity of
    [details['vocabulary_level']]; the readability and sentence-variety
    figures come from libraries outside this development. *)
Record GrammarDetails := mkGrammarDetails {
  error_counts : ErrorType → nat;
  lexical_diversity : float
}.

Record GrammarScore := mkGrammarScore {
  gs_score : float;
  gs_errors : list Error;
  gs_error_density : float;
  gs_suggestions : list string;
  gs_details : GrammarDetails
}.

(** An entry of [CoherenceScore.paragraph_transitions]. *)
Record Transition := mkTransition {
  tr_paragraph_index : nat;
  tr_transition_type : option string;
  tr_connection_strength : float;
  tr_has_explicit_transition : bool
}.

(** An entry of [CoherenceScore.weak_connections]. *)
Record WeakConnection := mkWeakConnection {
  wc_sentence_index : nat;
  wc_similarity_score : float;
  wc_sentence_before : Py.pystr;
  wc_sentence_after : Py.pystr;
  wc_suggestion : string
}.

Record CoherenceScore := mkCoherenceScore {
  cs_score : float;
  cs_sentence_flow : list float;
  cs_paragraph_transitions : list Transition;
  cs_weak_connections : list WeakConnection;
  cs_suggestions : list string;
  cs_readability_scores : gmap string float
}.

(** An entry of [RelevanceScore.topic_drift]. *)
Record Drift := mkDrift {
  dr_paragraph_index : nat;
  dr_relevance_score : float;
  dr_preview : Py.pystr;
  dr_suggestion : string
}.

Record RelevanceScore := mkRelevanceScore {
  rs_score : float;
  rs_topic_coverage : list (Py.pystr * float);
  rs_key_terms_found : list string;
  rs_missing_aspects : list string;
  rs_topic_drift : list Drift;
  rs_suggestions : list string
}.

(** [TextInput], after validation. *)
Record TextInput := mkTextInput {
  text : Py.pystr;
  topic : option Py.pystr;
  topics : option (list Py.pystr);
  custom_weights : option (Py.dict float)
}.

(** What a pydantic [ValidationError] reports for [TextInput.text]. *)
Inductive ValidationError :=
| string_too_short (min_length : Z)
| string_too_long (max_length : Z)
| value_error (msg : string).

(** [@field_validator('text') validate_text] *)
Definition validate_text (v : Py.pystr) : ValidationError + Py.pystr :=
  if negb (Py.truthy (Py.strip v))
  then inl (value_error "Text cannot be empty or only whitespace")
  else inr (Py.strip v).

(** [TextInput(text=..., topic=..., topics=..., custom_weights=...)]:
    the constraints of [Field(..., min_length=10, max_length=50000)] are
    checked on the value as received, then the field validator runs. *)
Definition TextInput_new (text : Py.pystr) (topic : option Py.pystr)
    (topics : option (list Py.pystr)) (custom_weights : option (Py.dict float))
    : ValidationError + TextInput :=
  if Z.of_nat (length text) <? 10 then inl (string_too_short 10)
  else if 50000 <? Z.of_nat (length text) then inl (string_too_long 50000)
  else match validate_text text with
       | inl e => inl e
       | inr v => inr (mkTextInput v topic topics custom_weights)
       end.

End Schemas.

(** ** config.py *)

Module Config.

Record Settings := mkSettings {
  gemini_api_key : string;
  cache_enabled : bool;
  cache_ttl : Qc;
  grammar_weight : float;
  coherence_weight : float;
  relevance_weight : float;
  min_text_length : Z;
  max_text_length : Z
}.

(** The defaults of the class body. *)
Definition defaults : Settings :=
  {| gemini_api_key := "";
     cache_enabled := true;
     cache_ttl := Q2Qc 3600;
     grammar_weight := 0.4;
     coherence_weight := 0.3;
     relevance_weight := 0.3;
     min_text_length := 50;
     max_text_length := 50000 |}.

Definition get_total_weight (self : Settings) : float :=
  (grammar_weight self + coherence_weight self + relevance_weight self)%float.

Definition normalize_weights (self : Settings) : Settings :=
  let total := get_total_weight self in
  if (0 <? total)%float
  then {| gemini_api_key := gemini_api_key self;
          cache_enabled := cache_enabled self;
          cache_ttl := cache_ttl self;
          grammar_weight := (grammar_weight self / total)%float;
          coherence_weight := (coherence_weight self / total)%float;
          relevance_weight := (relevance_weight self / total)%float;
          min_text_length := min_text_length self;
          max_text_length := max_text_length self |}
  else self.

(** [settings = Settings(); settings.normalize_weights()] *)
Definition settings : Settings := normalize_weights defaults.

End Config.

(** ** analyzers/base_analyzer.py *)

Module Base.
Import Py.

(** The quotation mark and the apostrophe. *)
Definition QUOTE : codepoint := 0x22%N.
Definition APOSTROPHE : codepoint := 0x27%N.

(** The first argument of the one call that the second line under
    "Normalize quotes" amounts to as the file is stored: the three
    apostrophes open a long string, which the next three close, so the
    text replaced is the fifteen characters between them: a comma, a
    space, an apostrophe in quotation marks, and [).replace(]. *)
Definition quoted_call : pystr :=
  [0x2C; 0x20; QUOTE; APOSTROPHE; QUOTE]%N ++ of_string ").replace(".

(** [preprocess_text], as the file is stored.  Under "Normalize quotes"
    the first line replaces the quotation mark by itself, twice, and the
    second line replaces [quoted_call] by an apostrophe. *)
Definition preprocess_text (text : pystr) : pystr :=
  let text := join [SPACE] (split text) in
  let text := remove_char 0x200d%N (remove_char 0x200c%N (remove_char 0x200b%N text)) in
  let text := replace_char QUOTE QUOTE (replace_char QUOTE QUOTE text) in
  let text := replace quoted_call [APOSTROPHE] text in
  strip text.

(** A text without a line break. *)
Definition one_line (text : pystr) : Prop := NEWLINE ∉ text.

(** [validate_text_length] *)
Definition validate_text_length (settings : Config.Settings) (text : pystr) : bool :=
  let text_length := Z.of_nat (length text) in
  (Config.min_text_length settings <=? text_length)
  && (text_length <=? Config.max_text_length settings).

(** [_split_paragraphs], the same in the coherence and the relevance
    analyzer:
    [[p.strip() for p in re.split(r'\n\s*\n', text) if p.strip()]]. *)
Definition _split_paragraphs (text : pystr) : list pystr :=
  map strip (filter (λ p, truthy (strip p) = true) (re_split_blank text)).

End Base.

(** ** analyzers/grammar_analyzer.py: merging the findings *)

Module Grammar.
Import Schemas.

(** [pos_key = (error.position[0], error.position[1], error.type)] *)
Definition pos_key (error : Error) : Z * Z * ErrorType :=
  (fst (position error), snd (position error), type error).

(** The generator inside [any(...)]:
    [abs(error.position[0] - e.position[0]) < 5 and
     abs(error.position[1] - e.position[1]) < 5]. *)
Definition overlaps (error e : Error) : bool :=
  (Z.abs (fst (position error) - fst (position e)) <? 5)
  && (Z.abs (snd (position error) - snd (position e)) <? 5).

(** The loop state: [all_errors] and [seen_positions]. *)
Definition merge_state : Type := list Error * gset (Z * Z * ErrorType).

(** Body of [for error in api_errors]. *)
Definition api_step (st : merge_state) (error : Error) : merge_state :=
  let '(all_errors, seen_positions) := st in
  if bool_decide (pos_key error ∉ seen_positions)
  then (all_errors ++ [error], {[pos_key error]} ∪ seen_positions)
  else st.

(** Body of [for error in local_errors]. *)
Definition local_step (st : merge_state) (error : Error) : merge_state :=
  let '(all_errors, seen_positions) := st in
  let overlap := existsb (overlaps error) all_errors in
  if negb overlap && bool_decide (pos_key error ∉ seen_positions)
  then (all_errors ++ [error], {[pos_key error]} ∪ seen_positions)
  else st.

(** [all_errors.sort(key=lambda e: e.position[0])]: Python's sort is
    stable, so equal keys keep their order; a stable insertion sort. *)
Fixpoint insert_by_start (x : Error) (l : list Error) : list Error :=
  match l with
  | [] => [x]
  | y :: l' =>
      if fst (position x) <=? fst (position y)
      then x :: y :: l'
      else y :: insert_by_start x l'
  end.

Definition sort_by_start (l : list Error) : list Error :=
  foldr insert_by_start [] l.

(** The state after the first loop, and after both loops. *)
Definition after_api (api_errors : list Error) : merge_state :=
  fold_left api_step api_errors ([], ∅).

Definition after_local (local_errors api_errors : list Error) : merge_state :=
  fold_left local_step local_errors (after_api api_errors).

Definition _merge_errors (local_errors api_errors : list Error) : list Error :=
  sort_by_start (fst (after_local local_errors api_errors)).

(** The list [all_errors] before the final sort. *)
Definition api_accepted (api_errors : list Error) : list Error :=
  fst (after_api api_errors).

Definition accepted (local_errors api_errors : list Error) : list Error :=
  fst (after_local local_errors api_errors).

(** The greedy overlap filter of the specification ("accept a local
    finding only if its span does not overlap any already-accepted
    finding"), written without the key set: [kept] holds the findings
    accepted so far. *)
Fixpoint overlap_filter_from (kept : list Error) (l : list Error) : list Error :=
  match l with
  | [] => kept
  | x :: l' =>
      if existsb (overlaps x) kept
      then overlap_filter_from kept l'
      else overlap_filter_from (kept ++ [x]) l'
  end.

Definition overlap_filter (l : list Error) : list Error :=
  overlap_filter_from [] l.

(** Ascending by span start. *)
Definition start_le (a b : Error) : Prop :=
  fst (position a) <= fst (position b).

Definition sorted_by_start (l : list Error) : Prop := Sorted start_le l.

(** [seen_positions] holds the keys of [all_errors]. *)
Definition keys_of (st : merge_state) : Prop :=
  ∀ k, k ∈ snd st ↔ ∃ e, e ∈ fst st ∧ pos_key e = k.

(** No two different findings of the list share a key; no two different
    findings of the list overlap. *)
Definition distinct_keys (l : list Error) : Prop :=
  ∀ a b, a ∈ l → b ∈ l → pos_key a = pos_key b → a = b.

Definition non_overlapping (l : list Error) : Prop :=
  ∀ a b, a ∈ l → b ∈ l → overlaps a b = true → a = b.

(** Order independence as the specification words it: permuting either
    input leaves the accepted set unchanged. *)
Definition merge_order_independent : Prop :=
  ∀ local local' api api' : list Error,
    local ≡ₚ local' → api ≡ₚ api' →
    ∀ e, e ∈ _merge_errors local api ↔ e ∈ _merge_errors local' api'.

(** The local-only merge as the specification words it: the filtered
    list, in its original order. *)
Definition local_only_keeps_order : Prop :=
  ∀ local : list Error, _merge_errors local [] = overlap_filter local.

(** Two findings within a ±5-character tolerance on both endpoints, as
    the specification words it: neither their starts nor their ends lie
    more than 5 characters apart. *)
Definition within_tolerance (a b : Error) : Prop :=
  Z.abs (fst (position a) - fst (position b)) <= 5
  ∧ Z.abs (snd (position a) - snd (position b)) <= 5.

(** The rule for local findings as the specification words it: a local
    finding is accepted only if no finding accepted before it is within
    the tolerance. *)
Definition local_accepted_outside_tolerance : Prop :=
  ∀ (local_errors api_errors : list Error) (x : Error),
    accepted (local_errors ++ [x]) api_errors = accepted local_errors api_errors ++ [x] →
    Forall (λ e, ¬ within_tolerance x e) (accepted local_errors api_errors).

(** *** Scoring *)

Definition severity_weights (s : Severity) : float :=
  match s with
  | LOW => 0.5
  | MEDIUM => 1
  | HIGH => 2
  | CRITICAL => 3
  end.

(** [total_penalty = sum(severity_weights.get(error.severity, 1.0) ...)] *)
Definition total_penalty (errors : list Error) : float :=
  Py.sum (map (λ error, severity_weights (severity error)) errors).

(** [_calculate_score].  In [word_count / 50] both are ints, and the
    quotient is the float nearest to the exact one; for a word count
    below 2^53 that is the quotient of the two as floats. *)
Definition _calculate_score (errors : list Error) (word_count : Z) : float :=
  if decide (word_count = 0) then 100%float
  else
    let expected_errors := (Py.float_of_Z word_count / 50)%float in
    let error_ratio := (total_penalty errors / Py.max expected_errors 1)%float in
    let score := Py.max 0 (100 - error_ratio * 20)%float in
    Py.round2 score.

(** The formula of the specification:
    [clamp(100 - error_ratio * 20, 0, 100)] with
    [error_ratio = penalty / max(word_count / 50, 1)]. *)
Definition clamp (x lo hi : float) : float := Py.max lo (Py.min hi x).

Definition spec_error_ratio (errors : list Error) (word_count : Z) : float :=
  (total_penalty errors / Py.max (Py.float_of_Z word_count / 50) 1)%float.

Definition spec_grammar_score (errors : list Error) (word_count : Z) : float :=
  clamp (100 - spec_error_ratio errors word_count * 20)%float 0%float 100%float.

(** The score as the specification words it. *)
Definition score_is_clamped_formula : Prop :=
  ∀ (errors : list Error) (word_count : Z),
    0 ≤ word_count →
    _calculate_score errors word_count = spec_grammar_score errors word_count.

(** [_count_errors_by_type] *)
Definition _count_errors_by_type (errors : list Error) : ErrorType → nat :=
  λ t, length (filter (λ error, type error = t) errors).

(** *** The facet

    The rule checker and the parser behind [_run_local_analysis], the
    remote service behind [_run_api_analysis], the word count of
    [get_text_statistics], [_generate_suggestions] and the vocabulary
    analysis are taken as given. *)
Section Analyze.

Variable _run_local_analysis : Py.pystr → Py.outcome (list Error).
Variable gemini_service : option (Py.pystr → Py.outcome (list Error)).
Variable word_count : Py.pystr → Z.
Variable _generate_suggestions : list Error → Py.pystr → list string.
Variable vocabulary_lexical_diversity : Py.pystr → float.

(** The block guarded by
    [use_api and self.gemini_service and len(processed_text) < 2000];
    a failure of the remote pass leaves [api_errors] empty. *)
Definition api_pass (use_api : bool) (processed_text : Py.pystr) : list Error :=
  match gemini_service with
  | Some _run_api_analysis =>
      if use_api && (Z.of_nat (length processed_text) <? 2000)
      then match _run_api_analysis processed_text with
           | Py.Returns errors => errors
           | Py.Raises _ => []
           end
      else []
  | None => []
  end.

Definition analyze (text : Py.pystr) (use_api : bool) : Py.outcome GrammarScore :=
  let processed_text := Base.preprocess_text text in
  let words := word_count processed_text in
  match _run_local_analysis processed_text with
  | Py.Raises msg => Py.Raises msg
  | Py.Returns local_errors =>
      let api_errors := api_pass use_api processed_text in
      let all_errors := _merge_errors local_errors api_errors in
      let score := _calculate_score all_errors words in
      let suggestions := _generate_suggestions all_errors processed_text in
      Py.Returns
        {| gs_score := score;
           gs_errors := all_errors;
           gs_error_density :=
             (Py.float_of_Z (Z.of_nat (length all_errors))
              / Py.float_of_Z (Z.max words 1) * 100)%float;
           gs_suggestions := suggestions;
           gs_details :=
             {| error_counts := _count_errors_by_type all_errors;
                lexical_diversity := vocabulary_lexical_diversity processed_text |} |}
  end.

End Analyze.

End Grammar.


(** ** analyzers/coherence_analyzer.py

    The embedding model (through the cosine similarity of two texts),
    the sentence splitter, the transition-word lookup, the readability
    library and the remote feedback are taken as given. *)

Module Coherence.
Import Py Schemas.

Section Analyze.

Variable similarity : pystr → pystr → float.
Variable _split_sentences : pystr → list pystr.
Variable _identify_transition_type : pystr → option string.
Variable _calculate_readability_metrics : pystr → gmap string float.
Variable _suggest_connection_improvement : pystr → pystr → string.
(** [_get_api_feedback] when the service is configured, reduced to the
    entry ['specific_improvements'] of its answer ([None] when the
    answer is empty or lacks the entry; the method catches its own
    failures). *)
Variable gemini_service : option (pystr → option (list string)).

(** [_calculate_sentence_flow]: nothing for fewer than two sentences,
    else the similarity of each sentence with the next. *)
Fixpoint _calculate_sentence_flow (sentences : list pystr) : list float :=
  match sentences with
  | s1 :: (s2 :: _) as rest => similarity s1 s2 :: _calculate_sentence_flow rest
  | _ => []
  end.

(** [_calculate_connection_strength] on the last sentence of one
    paragraph and the first of the next, [0.0] when either has none. *)
Definition connection_strength (current_para next_para : pystr) : float :=
  match last (_split_sentences current_para), head (_split_sentences next_para) with
  | Some s1, Some s2 => similarity s1 s2
  | _, _ => 0%float
  end.

(** [_analyze_paragraph_transitions]: [for i in range(len(paragraphs) - 1)] *)
Fixpoint transitions_from (i : nat) (paragraphs : list pystr) : list Transition :=
  match paragraphs with
  | current_para :: (next_para :: _) as rest =>
      let transition_type := _identify_transition_type next_para in
      {| tr_paragraph_index := i;
         tr_transition_type := transition_type;
         tr_connection_strength := connection_strength current_para next_para;
         tr_has_explicit_transition := bool_decide (transition_type ≠ None) |}
      :: transitions_from (S i) rest
  | _ => []
  end.

Definition _analyze_paragraph_transitions (paragraphs : list pystr) : list Transition :=
  transitions_from 0 paragraphs.

(** [s[:100] + '...' if len(s) > 100 else s] *)
Definition preview (s : pystr) : pystr :=
  if (100 <? length s)%nat then take 100 s ++ of_string "..." else s.

(** [_identify_weak_connections]: [sentence_flow] has one entry per pair
    of consecutive sentences. *)
Fixpoint weak_from (i : nat) (sentences : list pystr) (sentence_flow : list float)
    : list WeakConnection :=
  match sentence_flow, sentences with
  | sim :: flow, s1 :: (s2 :: _) as rest =>
      (if (sim <? 0.3)%float
       then [ {| wc_sentence_index := i;
                 wc_similarity_score := sim;
                 wc_sentence_before := preview s1;
                 wc_sentence_after := preview s2;
                 wc_suggestion := _suggest_connection_improvement s1 s2 |} ]
       else [])
      ++ weak_from (S i) rest flow
  | _, _ => []
  end.

Definition _identify_weak_connections (sentences : list pystr)
    (sentence_flow : list float) : list WeakConnection :=
  weak_from 0 sentences sentence_flow.

(** [sum(10 for t in paragraph_transitions
         if t['has_explicit_transition'] and t['connection_strength'] > 0.5)],
    an int *)
Definition transition_bonus (paragraph_transitions : list Transition) : Z :=
  Py.sum_int
    (map (λ _, 10)
       (filter (λ t, tr_has_explicit_transition t = true
                     ∧ (0.5 <? tr_connection_strength t)%float = true)
               paragraph_transitions)).

Definition len {A} (l : list A) : Z := Z.of_nat (length l).

(** [_calculate_coherence_score].  The penalty and the bonus are ints;
    without sentence pairs the flow score is the int [100] and the sum
    of the three is an int, converted when it meets the readability
    factor; otherwise the ints are converted one by one as they meet the
    float flow score. *)
Definition _calculate_coherence_score (sentence_flow : list float)
    (paragraph_transitions : list Transition)
    (weak_connections : list WeakConnection)
    (readability_scores : gmap string float) : float :=
  let weak_penalty := len weak_connections * 5 in
  let transition_bonus := transition_bonus paragraph_transitions in
  let flesch_score := default 60%float (readability_scores !! "flesch_reading_ease") in
  let readability_factor := (Py.min 100 (Py.max 0 flesch_score) / 100)%float in
  let base :=
    match sentence_flow with
    | [] => float_of_Z (100 - weak_penalty + transition_bonus)
    | _ =>
        (Py.sum sentence_flow / float_of_Z (len sentence_flow) * 100
         - float_of_Z weak_penalty + float_of_Z transition_bonus)%float
    end in
  let score := (base * readability_factor)%float in
  Py.max 0 (Py.min 100 score).

Definition _generate_suggestions (sentence_flow : list float)
    (paragraph_transitions : list Transition)
    (weak_connections : list WeakConnection)
    (api_feedback : option (list string)) : list string :=
  let s1 :=
    match sentence_flow with
    | [] => []
    | _ => if (Py.sum sentence_flow / float_of_Z (len sentence_flow) <? 0.4)%float
           then ["Consider using more transitional phrases to connect sentences"]
           else []
    end in
  let s2 :=
    if (3 <? length weak_connections)%nat
    then ["Several sentences appear disconnected. Try to establish clearer logical connections"]
    else [] in
  let no_transition_count :=
    length (filter (λ t, tr_has_explicit_transition t = false) paragraph_transitions) in
  let s3 :=
    if (float_of_Z (len paragraph_transitions) / 2
        <? float_of_Z (Z.of_nat no_transition_count))%float
    then ["Add transition words or phrases at the beginning of paragraphs"]
    else [] in
  let s4 := match api_feedback with Some l => take 2 l | None => [] end in
  let s5 :=
    if existsb (λ wc, (wc_similarity_score wc <? 0.2)%float) weak_connections
    then ["Some sentences seem to jump to new topics abruptly. Consider adding bridging sentences"]
    else [] in
  take 5 (s1 ++ s2 ++ s3 ++ s4 ++ s5).

Definition api_pass (use_api : bool) (processed_text : pystr) : option (list string) :=
  match gemini_service with
  | Some _get_api_feedback =>
      if use_api && (Z.of_nat (length processed_text) <? 2000)
      then _get_api_feedback processed_text
      else None
  | None => None
  end.

Definition analyze (text : pystr) (use_api : bool) : CoherenceScore :=
  let processed_text := Base.preprocess_text text in
  let sentences := _split_sentences processed_text in
  let paragraphs := Base._split_paragraphs processed_text in
  let sentence_flow := _calculate_sentence_flow sentences in
  let paragraph_transitions := _analyze_paragraph_transitions paragraphs in
  let weak_connections := _identify_weak_connections sentences sentence_flow in
  let readability_scores := _calculate_readability_metrics processed_text in
  let api_feedback := api_pass use_api processed_text in
  {| cs_score :=
       _calculate_coherence_score sentence_flow paragraph_transitions
         weak_connections readability_scores;
     cs_sentence_flow := sentence_flow;
     cs_paragraph_transitions := paragraph_transitions;
     cs_weak_connections := weak_connections;
     cs_suggestions :=
       _generate_suggestions sentence_flow paragraph_transitions
         weak_connections api_feedback;
     cs_readability_scores := readability_scores |}.

End Analyze.

End Coherence.

(** ** analyzers/relevance_analyzer.py

    The embedding model, the key-term extraction, the coverage and
    missing-aspect computations, the remote analysis and the wording of
    the suggestions are taken as given.  [analyze] records which of its
    stages it awaits. *)

Module Relevance.
Import Py Schemas.

Inductive stage :=
| ExtractKeyTerms
| TopicCoverage
| MissingAspects
| TopicDrift
| ApiAnalysis.

(** A value together with the stages that ran to produce it. *)
Definition traced (A : Type) : Type := list stage * A.

#[global] Instance traced_ret : MRet traced := λ A a, ([], a).

#[global] Instance traced_bind : MBind traced := λ A B k m,
  let '(t1, a) := m in
  let '(t2, b) := k a in
  (t1 ++ t2, b).

Definition await {A} (s : stage) (a : A) : traced A := ([s], a).

(** The answer of the remote analysis, reduced to the two entries that
    are read. *)
Record ApiAnswer := mkApiAnswer {
  overall_relevance : option string;
  improvement_suggestions : option (list string)
}.

(** [relevance_map.get(api_analysis['overall_relevance'], 0)], an int *)
Definition relevance_map (r : string) : Z :=
  if decide (r = "excellent") then 10
  else if decide (r = "good") then 5
  else if decide (r = "fair") then 0
  else if decide (r = "poor") then -10
  else 0.

Definition len {A} (l : list A) : Z := Z.of_nat (length l).

(** A [Dict[str, float]] keyed by topics, in insertion order. *)
Definition coverage : Type := list (pystr * float).

(** [sum(topic_coverage.values())] *)
Definition sum_values (topic_coverage : coverage) : float :=
  Py.sum (map snd topic_coverage).

(** [_calculate_relevance_score].  The penalty and the adjustment are
    ints, and so are the coverage [50] of an empty dict and the bonus
    [10]; each is written as the float of the same value, which is what
    it becomes on meeting a float, a list being far shorter than the
    2^53 from which on an int need not be a float. *)
Definition _calculate_relevance_score (topic_coverage : coverage)
    (key_terms : list string) (topic_drift : list Drift)
    (api_analysis : option ApiAnswer) : float :=
  let avg_coverage :=
    match topic_coverage with
    | [] => 50%float
    | _ => (sum_values topic_coverage / float_of_Z (len topic_coverage))%float
    end in
  let drift_penalty := len topic_drift * 5 in
  let term_bonus := Py.min 10 (float_of_Z (len key_terms) / 2)%float in
  let api_adjustment :=
    match api_analysis with
    | Some {| overall_relevance := Some r |} => relevance_map r
    | _ => 0
    end in
  let score :=
    (avg_coverage - float_of_Z drift_penalty + term_bonus
     + float_of_Z api_adjustment)%float in
  Py.max 0 (Py.min 100 score).

Section Analyze.

Variable similarity : pystr → pystr → float.
Variable _extract_key_terms : pystr → list string.
Variable _calculate_topic_coverage : pystr → list pystr → coverage.
Variable _identify_missing_aspects : pystr → list pystr → list string → list string.
Variable gemini_service : option (pystr → list pystr → option ApiAnswer).
Variable _generate_suggestions :
  coverage → list string → list Drift → option ApiAnswer → list string.

(** [paragraph[:100] + '...' if len(paragraph) > 100 else paragraph] *)
Definition preview (s : pystr) : pystr :=
  if (100 <? length s)%nat then take 100 s ++ of_string "..." else s.

(** [max(relevances) if relevances else 0] *)
Definition max_relevance (relevances : list float) : float :=
  match relevances with
  | [] => 0%float
  | r :: rest => fold_left Py.max rest r
  end.

(** The loop [for i, paragraph in enumerate(paragraphs)] of
    [_analyze_topic_drift]. *)
Fixpoint drift_from (i : nat) (paragraphs : list pystr) (topics : list pystr)
    : list Drift :=
  match paragraphs with
  | [] => []
  | paragraph :: rest =>
      if (length (strip paragraph) <? 50)%nat then drift_from (S i) rest topics
      else
        let relevances := map (similarity paragraph) topics in
        if (max_relevance relevances <? 0.3)%float
        then {| dr_paragraph_index := i;
                dr_relevance_score := max_relevance relevances;
                dr_preview := preview paragraph;
                dr_suggestion := "This section seems to drift from the main topic" |}
             :: drift_from (S i) rest topics
        else drift_from (S i) rest topics
  end.

Definition _analyze_topic_drift (text : pystr) (topics : list pystr) : list Drift :=
  let paragraphs := Base._split_paragraphs text in
  if (length paragraphs <? 2)%nat then []
  else drift_from 0 paragraphs topics.

(** [drift_penalty = len(topic_drift) * 5], an int *)
Definition drift_penalty (topic_drift : list Drift) : Z :=
  len topic_drift * 5.

(** The result returned when no topic is given. *)
Definition neutral_score : RelevanceScore :=
  {| rs_score := 50%float;
     rs_topic_coverage := [];
     rs_key_terms_found := [];
     rs_missing_aspects := [];
     rs_topic_drift := [];
     rs_suggestions := ["Please provide a topic to analyze relevance against"] |}.

(** [all_topics]: [if topic: append]; [if topics: extend]. *)
Definition all_topics (topic : option pystr) (topics : option (list pystr)) : list pystr :=
  (match topic with
   | Some t => if truthy t then [t] else []
   | None => []
   end)
  ++ default [] topics.

Definition api_pass (use_api : bool) (processed_text : pystr) (topics : list pystr)
    : traced (option ApiAnswer) :=
  match gemini_service with
  | Some _get_api_analysis =>
      if use_api && (Z.of_nat (length processed_text) <? 2000)
      then await ApiAnalysis (_get_api_analysis processed_text topics)
      else mret None
  | None => mret None
  end.

Definition analyze (text : pystr) (topic : option pystr)
    (topics : option (list pystr)) (use_api : bool) : traced RelevanceScore :=
  let processed_text := Base.preprocess_text text in
  let all_topics := all_topics topic topics in
  match all_topics with
  | [] => mret neutral_score
  | _ =>
      key_terms ← await ExtractKeyTerms (_extract_key_terms processed_text);
      topic_coverage ← await TopicCoverage
        (_calculate_topic_coverage processed_text all_topics);
      missing_aspects ← await MissingAspects
        (_identify_missing_aspects processed_text all_topics key_terms);
      topic_drift ← await TopicDrift (_analyze_topic_drift processed_text all_topics);
      api_analysis ← api_pass use_api processed_text all_topics;
      mret {| rs_score :=
                _calculate_relevance_score topic_coverage key_terms topic_drift
                  api_analysis;
              rs_topic_coverage := topic_coverage;
              rs_key_terms_found := take 20 key_terms;
              rs_missing_aspects := missing_aspects;
              rs_topic_drift := topic_drift;
              rs_suggestions :=
                _generate_suggestions topic_coverage missing_aspects topic_drift
                  api_analysis |}
  end.

End Analyze.

End Relevance.

(** ** services/cache_service.py *)

Module Cache.
Import Py.

Section Service.

(** The type of the cached results ([AnalysisResult]). *)
Variable Result : Type.

(** The dictionary stored under a key: [result.dict()], kept as the
    result that [get] rebuilds from it, with the time of the write and
    the version tag. *)
Record cache_data := mkCacheData {
  cd_result : Result;
  cd_timestamp : Qc;
  cd_version : string
}.

(** *** The store: [diskcache.Cache]

    The third-party store is used through [get], [set(..., expire=)],
    [delete], [len] and its truth value.  A row carries the time at which
    it expires; [get] does not return an expired row, and leaves it in
    the table; [len] counts the rows, expired ones included.  The class
    defines [__len__] ([get_stats] calls [len(self.cache)]) and no
    [__bool__], so a store without rows is false in a condition.  The
    culling that [set] may do (expired rows, and the least recently used
    ones beyond 1 GB) is not represented. *)
Record row := mkRow {
  value : cache_data;
  expire_time : option Qc
}.

Abbreviation DiskCache := (gmap string row).

Definition unexpired (now : Qc) (r : row) : bool :=
  match expire_time r with
  | None => true
  | Some t => bool_decide (now < t)%Qc
  end.

Definition dc_get (c : DiskCache) (now : Qc) (key : string) : option cache_data :=
  match c !! key with
  | Some r => if unexpired now r then Some (value r) else None
  | None => None
  end.

Definition dc_set (c : DiskCache) (now : Qc) (key : string) (v : cache_data)
    (expire : Qc) : DiskCache :=
  <[key := {| value := v; expire_time := Some (now + expire)%Qc |}]> c.

Definition dc_delete (c : DiskCache) (key : string) : bool * DiskCache :=
  (bool_decide (is_Some (c !! key)), delete key c).

Definition dc_len (c : DiskCache) : nat := size c.

Definition dc_bool (c : DiskCache) : bool := negb (dc_len c =? 0)%nat.

(** *** The service *)

Record CacheService := mkCacheService {
  enabled : bool;
  cache : option DiskCache;
  ttl : Qc
}.

(** [__init__]: [disk] is what the cache directory holds when the
    process starts. *)
Definition init (settings : Config.Settings) (disk : DiskCache) : CacheService :=
  {| enabled := Config.cache_enabled settings;
     cache := if Config.cache_enabled settings then Some disk else None;
     ttl := Config.cache_ttl settings |}.

(** The guard [not self.enabled or not self.cache] of every method. *)
Definition unavailable (self : CacheService) : bool :=
  negb (enabled self)
  || negb (match cache self with Some c => dc_bool c | None => false end).

Definition with_cache (self : CacheService) (c : DiskCache) : CacheService :=
  {| enabled := enabled self; cache := Some c; ttl := ttl self |}.

(** [_is_cache_valid] *)
Definition _is_cache_valid (cached_data : cache_data) : bool :=
  if decide (cd_version cached_data ≠ "1.0.0") then false else true.

(** [delete] *)
Definition delete (self : CacheService) (key : string) : bool * CacheService :=
  if unavailable self then (false, self)
  else match cache self with
       | Some c => let '(b, c') := dc_delete c key in (b, with_cache self c')
       | None => (false, self)
       end.

(** [get], at time [now]. *)
Definition get (self : CacheService) (now : Qc) (key : string)
    : option Result * CacheService :=
  if unavailable self then (None, self)
  else match cache self with
       | Some c =>
           match dc_get c now key with
           | Some cached_data =>
               if _is_cache_valid cached_data
               then (Some (cd_result cached_data), self)
               else (None, snd (delete self key))
           | None => (None, self)
           end
       | None => (None, self)
       end.

(** [set], at time [now]. *)
Definition set (self : CacheService) (now : Qc) (key : string) (result : Result)
    : bool * CacheService :=
  if unavailable self then (false, self)
  else match cache self with
       | Some c =>
           let cache_data :=
             {| cd_result := result; cd_timestamp := now; cd_version := "1.0.0" |} in
           (true, with_cache self (dc_set c now key cache_data (ttl self)))
       | None => (false, self)
       end.

End Service.

Arguments mkCacheData {Result}.
Arguments cd_result {Result}.
Arguments cd_timestamp {Result}.
Arguments cd_version {Result}.
Arguments mkRow {Result}.
Arguments value {Result}.
Arguments expire_time {Result}.
Arguments mkCacheService {Result}.
Arguments enabled {Result}.
Arguments cache {Result}.
Arguments ttl {Result}.
Arguments unexpired {Result}.
Arguments dc_get {Result}.
Arguments dc_set {Result}.
Arguments dc_delete {Result}.
Arguments dc_len {Result}.
Arguments dc_bool {Result}.
Arguments init {Result}.
Arguments unavailable {Result}.
Arguments with_cache {Result}.
Arguments _is_cache_valid {Result}.
Arguments delete {Result}.
Arguments get {Result}.
Arguments set {Result}.

(** [generate_key]: the SHA-256 digest of [f"{text}:{topic if topic else ''}"]. *)
Definition generate_key (sha256 : pystr → string) (text : pystr)
    (topic : option pystr) : string :=
  sha256 (text ++ of_string ":" ++ default [] topic).

End Cache.

(** ** main.py *)

Module Main.
Import Py Schemas.

(** What [get_text_statistics] contributes to the result. *)
Record Stats := mkStats {
  word_count : Z;
  sentence_count : Z;
  paragraph_count : Z;
  avg_sentence_length : float
}.

Record AnalysisResult := mkAnalysisResult {
  overall_score : float;
  grammar : GrammarScore;
  coherence : CoherenceScore;
  relevance : RelevanceScore;
  stats : Stats;
  processing_time : float;
  timestamp : Qc;
  feedback_summary : string;
  strengths : list string;
  areas_for_improvement : list string
}.

(** What the caller of the endpoint gets: the result, the rejection of
    the request body by the input model, or an [HTTPException]. *)
Inductive Response :=
| Ok (result : AnalysisResult)
| Rejected (e : ValidationError)
| HTTPException (status_code : Z) (detail : string).

(** The process state the handler works on. *)
Record App := mkApp {
  cache_service : Cache.CacheService AnalysisResult;
  analysis_history : list AnalysisResult
}.

#[global] Instance outcome_ret : MRet outcome := λ A a, Returns a.

#[global] Instance outcome_bind : MBind outcome := λ A B k m,
  match m with
  | Returns a => k a
  | Raises msg => Raises msg
  end.

(** [await asyncio.gather(grammar_task, coherence_task, relevance_task)]:
    the three results, or the exception of a task that raised (the first
    in argument order here; with tasks running concurrently it is the
    first to raise). *)
Definition gather {A B C} (a : outcome A) (b : outcome B) (c : outcome C)
    : outcome (A * B * C) :=
  x ← a; y ← b; z ← c; mret (x, y, z).

(** *** Weights *)

(** [sum(weights.values())] *)
Definition sum_values (weights : dict float) : float :=
  Py.sum (dict_values weights).

Definition default_weights (settings : Config.Settings) : dict float :=
  [("grammar", Config.grammar_weight settings);
   ("coherence", Config.coherence_weight settings);
   ("relevance", Config.relevance_weight settings)].

(** [total = sum(weights.values());
     weights = {k: v/total for k, v in weights.items()}]: the first
    division raises when the total is zero. *)
Definition normalized (weights : dict float) : outcome (dict float) :=
  let total := sum_values weights in
  match weights with
  | [] => Returns []
  | _ =>
      if (total =? 0)%float then Raises "float division by zero"
      else Returns (map (λ kv, (fst kv, (snd kv / total)%float)) weights)
  end.

(** [if input_data.custom_weights: weights.update(...)] and the
    normalisation: an empty dict counts as none. *)
Definition effective_weights (settings : Config.Settings)
    (custom_weights : option (dict float)) : outcome (dict float) :=
  let weights := default_weights settings in
  match custom_weights with
  | Some ((_ :: _) as custom) => normalized (dict_update weights custom)
  | _ => Returns weights
  end.

(** [weights[k]] for one of the three facet keys, which are always
    present. *)
Definition weight (weights : dict float) (k : string) : float :=
  default 0%float (dict_get k weights).

Definition weighted_score (weights : dict float)
    (grammar_score coherence_score relevance_score : float) : float :=
  (grammar_score * weight weights "grammar"
   + coherence_score * weight weights "coherence"
   + relevance_score * weight weights "relevance")%float.

(** *** Feedback *)

Definition level (overall_score : float) : string :=
  if (90 <=? overall_score)%float then "excellent"
  else if (80 <=? overall_score)%float then "very good"
  else if (70 <=? overall_score)%float then "good"
  else if (60 <=? overall_score)%float then "fair"
  else "needs improvement".

(** [min(scores.items(), key=...)] and [max(...)]: the first of the
    smallest, the first of the largest. *)
Definition weakest (first : string * float) (rest : list (string * float))
    : string * float :=
  fold_left (λ best x, if (snd x <? snd best)%float then x else best) rest first.

Definition strongest (first : string * float) (rest : list (string * float))
    : string * float :=
  fold_left (λ best x, if (snd best <? snd x)%float then x else best) rest first.

Section Handler.

(** The three facets, as the handler sees them; the text preprocessor
    and the statistics; the digest used for cache keys; the rendering
    [f"{x:.1f}"] of a score; the settings. *)
Variable grammar_analyze : pystr → outcome GrammarScore.
Variable coherence_analyze : pystr → outcome CoherenceScore.
Variable relevance_analyze :
  pystr → option pystr → option (list pystr) → outcome RelevanceScore.
Variable process : pystr → pystr.
Variable get_text_statistics : pystr → Stats.
Variable sha256 : pystr → string.
Variable format_1f : float → string.
Variable settings : Config.Settings.

Definition _generate_feedback_summary (overall_score : float) (grammar : GrammarScore)
    (coherence : CoherenceScore) (relevance : RelevanceScore) : string :=
  let summary :=
    "Your text scores " +:+ format_1f overall_score +:+ "/100, which is "
      +:+ level overall_score +:+ ". " in
  let first := ("grammar", gs_score grammar) in
  let rest := [("coherence", cs_score coherence); ("relevance", rs_score relevance)] in
  let weakest := weakest first rest in
  let strongest := strongest first rest in
  if (20 <? snd strongest - snd weakest)%float
  then summary +:+ "Your " +:+ fst strongest +:+ " is particularly strong, "
         +:+ "but focus on improving " +:+ fst weakest +:+ "."
  else summary +:+ "The text is well-balanced across all criteria.".

Definition _identify_strengths (grammar : GrammarScore) (coherence : CoherenceScore)
    (relevance : RelevanceScore) : list string :=
  let strengths :=
    (if (85 <=? gs_score grammar)%float
     then ["Strong grammar and spelling"] else [])
    ++ (if (85 <=? cs_score coherence)%float
        then ["Excellent flow and organization"] else [])
    ++ (if (85 <=? rs_score relevance)%float
        then ["Highly relevant to the topic"] else [])
    ++ (if (0.7 <? lexical_diversity (gs_details grammar))%float
        then ["Rich vocabulary"] else []) in
  take 3 strengths.

(** The loop of [_identify_improvements], which stops at three. *)
Fixpoint improvements_from (improvements : list string) (seen : gset string)
    (all_suggestions : list string) : list string :=
  match all_suggestions with
  | [] => improvements
  | suggestion :: rest =>
      if bool_decide (suggestion ∉ seen)
      then
        let improvements := improvements ++ [suggestion] in
        if (3 <=? length improvements)%nat then improvements
        else improvements_from improvements ({[suggestion]} ∪ seen) rest
      else improvements_from improvements seen rest
  end.

Definition _identify_improvements (grammar : GrammarScore) (coherence : CoherenceScore)
    (relevance : RelevanceScore) : list string :=
  improvements_from [] ∅
    (gs_suggestions grammar ++ cs_suggestions coherence ++ rs_suggestions relevance).

(** [AnalysisResult(...)]: the model requires [0 <= overall_score <= 100]. *)
Definition AnalysisResult_new (r : AnalysisResult) : outcome AnalysisResult :=
  if ((0 <=? overall_score r) && (overall_score r <=? 100))%float
  then Returns r
  else Raises "1 validation error for AnalysisResult".

(** The body of the [try] block between the cache lookup and the cache
    write; [later] is the time at which the result is built. *)
Definition compute (later : Qc) (input_data : TextInput) : outcome AnalysisResult :=
  let processed_text := process (text input_data) in
  '(grammar_score, coherence_score, relevance_score) ←
    gather (grammar_analyze processed_text)
           (coherence_analyze processed_text)
           (relevance_analyze processed_text (topic input_data) (topics input_data));
  let stats := get_text_statistics processed_text in
  weights ← effective_weights settings (custom_weights input_data);
  let overall_score :=
    weighted_score weights (gs_score grammar_score) (cs_score coherence_score)
      (rs_score relevance_score) in
  AnalysisResult_new
    {| overall_score := round2 overall_score;
       grammar := grammar_score;
       coherence := coherence_score;
       relevance := relevance_score;
       stats :=
         mkStats (word_count stats) (sentence_count stats) (paragraph_count stats)
           (round2 (avg_sentence_length stats));
       processing_time := 0;
       timestamp := later;
       feedback_summary :=
         _generate_feedback_summary overall_score grammar_score coherence_score
           relevance_score;
       strengths := _identify_strengths grammar_score coherence_score relevance_score;
       areas_for_improvement :=
         _identify_improvements grammar_score coherence_score relevance_score |}.

(** [analyze_text]: the lookup happens at [now], the result is built
    and stored at [later].  Every exception of the [try] block becomes
    [HTTPException(status_code=500, detail=str(e))]. *)
Definition analyze_text (app : App) (now later : Qc) (input_data : TextInput)
    : Response * App :=
  let cache_key := Cache.generate_key sha256 (text input_data) (topic input_data) in
  let '(cached_result, service) := Cache.get (cache_service app) now cache_key in
  match cached_result with
  | Some result => (Ok result, mkApp service (analysis_history app))
  | None =>
      match compute later input_data with
      | Raises msg => (HTTPException 500 msg, mkApp service (analysis_history app))
      | Returns result =>
          let '(_, service) := Cache.set service later cache_key result in
          (Ok result, mkApp service (analysis_history app ++ [result]))
      end
  end.

(** The endpoint [POST /analyze]: the body is turned into a [TextInput]
    before the handler is entered. *)
Definition post_analyze (app : App) (now later : Qc) (body_text : pystr)
    (body_topic : option pystr) (body_topics : option (list pystr))
    (body_custom_weights : option (dict float)) : Response * App :=
  match TextInput_new body_text body_topic body_topics body_custom_weights with
  | inl e => (Rejected e, app)
  | inr input_data => analyze_text app now later input_data
  end.

End Handler.

(** The scenario of the specification for [custom_weights = {"grammar": 1}]:
    grammar weighs 1, the other two 0, and the composite score is the
    grammar score. *)
Definition grammar_only_scenario : Prop :=
  ∃ w, effective_weights Config.settings (Some [("grammar", 1%float)]) = Returns w
       ∧ weight w "grammar" = 1%float
       ∧ weight w "coherence" = 0%float
       ∧ weight w "relevance" = 0%float
       ∧ ∀ g c r, weighted_score w g c r = g.

(** Graceful degradation as the specification words it: when a facet
    raises (and the result is not served from the cache), the handler
    still returns a result, in which the failing facet has the score 50
    and a suggestion. *)
Definition facet_failure_degrades : Prop :=
  ∀ grammar_analyze coherence_analyze relevance_analyze process
    get_text_statistics sha256 format_1f settings app now later input_data,
    let processed_text := process (text input_data) in
    let g := grammar_analyze processed_text in
    let c := coherence_analyze processed_text in
    let r := relevance_analyze processed_text (topic input_data) (topics input_data) in
    fst (Cache.get (cache_service app) now
           (Cache.generate_key sha256 (text input_data) (topic input_data))) = None →
    raises g ∨ raises c ∨ raises r →
    ∃ result,
      fst (analyze_text grammar_analyze coherence_analyze relevance_analyze process
             get_text_statistics sha256 format_1f settings app now later input_data)
        = Ok result
      ∧ (raises g → gs_score (grammar result) = 50%float
                    ∧ gs_suggestions (grammar result) ≠ [])
      ∧ (raises c → cs_score (coherence result) = 50%float
                    ∧ cs_suggestions (coherence result) ≠ [])
      ∧ (raises r → rs_score (relevance result) = 50%float
                    ∧ rs_suggestions (relevance result) ≠ []).

End Main.

(** ** Sample values *)

Module Samples.
Import Py Schemas.

Definition finding (t : ErrorType) (s : Severity) (start stop : Z) (msg : string) : Error :=
  mkError t s (start, stop) msg None None 0.8.

Definition sentence : pystr :=
  of_string "This is a simple test sentence. It has two sentences.".

Definition request : TextInput := mkTextInput sentence None None None.

Definition no_stats : Main.Stats := Main.mkStats 10 2 1 5.

Definition calm_coherence : CoherenceScore :=
  mkCoherenceScore 80 [] [] [] [] ∅.

(** A process that starts on an empty cache directory. *)
Definition fresh_app : Main.App :=
  Main.mkApp (Cache.init Config.settings ∅) [].

(** A grammar facet whose rule checker cannot be reached. *)
Definition failing_grammar (_ : pystr) : outcome GrammarScore :=
  Raises "LanguageTool server not reachable".

Definition analyze_with_failing_grammar : Main.Response :=
  fst (Main.analyze_text failing_grammar (λ _, Returns calm_coherence)
         (λ _ _ _, Returns Relevance.neutral_score) id (λ _, no_stats)
         (λ _, "key") (λ _, "") Config.settings fresh_app (Q2Qc 0) (Q2Qc 1) request).

End Samples.

(** * Properties *)

#[local] Set Warnings "-clear-no-such-hyp".

(** ** Binary64 arithmetic *)

Module FloatFacts.
Import Py.

Lemma shr_1_nonneg mrs : 0 <= shr_m mrs → 0 <= shr_m (shr_1 mrs).
Proof.
  destruct mrs as [m r s]. simpl. intros Hm.
  destruct m as [|[p|p|]|p]; simpl; lia.
Qed.

Lemma iter_pos_shr_1_nonneg p mrs :
  0 <= shr_m mrs → 0 <= shr_m (SpecFloat.iter_pos shr_1 p mrs).
Proof.
  revert mrs. induction p as [p IH|p IH|]; intros mrs Hm; simpl.
  - apply IH, IH, shr_1_nonneg, Hm.
  - apply IH, IH, Hm.
  - apply shr_1_nonneg, Hm.
Qed.

Lemma shr_fexp_nonneg m e l :
  0 <= m → 0 <= shr_m (fst (shr_fexp prec emax m e l)).
Proof.
  intros Hm. unfold shr_fexp, shr.
  assert (0 <= shr_m (shr_record_of_loc m l)) as H0.
  { by destruct l as [|[]]. }
  destruct (fexp prec emax (Zdigits2 m + e) - e); simpl; [done | | done].
  by apply iter_pos_shr_1_nonneg.
Qed.

Lemma round_nearest_even_nonneg m l : 0 <= m → 0 <= round_nearest_even m l.
Proof.
  intros Hm. destruct l as [|[]]; simpl; [done | | done | lia].
  destruct (Z.even m); lia.
Qed.

(** Rounding a non-negative mantissa gives a number with the sign asked
    for. *)
Lemma binary_round_aux_signed sx mx ex lx :
  0 <= mx → signed sx (binary_round_aux prec emax sx mx ex lx).
Proof.
  intros Hm. unfold binary_round_aux.
  pose proof (shr_fexp_nonneg mx ex lx Hm) as H1.
  destruct (shr_fexp prec emax mx ex lx) as [mrs' e'] eqn:E1. simpl in H1.
  pose proof (shr_fexp_nonneg
                (round_nearest_even (shr_m mrs') (loc_of_shr_record mrs'))
                e' loc_Exact (round_nearest_even_nonneg _ _ H1)) as H2.
  destruct (shr_fexp prec emax
              (round_nearest_even (shr_m mrs') (loc_of_shr_record mrs'))
              e' loc_Exact) as [mrs'' e''] eqn:E2.
  simpl in H2. destruct (shr_m mrs'') as [|m|m]; simpl; [done | | lia].
  by destruct (e'' <=? emax - prec).
Qed.

Lemma binary_round_signed sx mx ex : signed sx (binary_round prec emax sx mx ex).
Proof.
  unfold binary_round.
  destruct (shl_align mx ex (fexp prec emax (Z.pos (digits2_pos mx) + ex))) as [mz ez].
  by apply binary_round_aux_signed.
Qed.

Lemma of_uint63_signed n : signed false (Prim2SF (of_uint63 n)).
Proof.
  rewrite of_uint63_spec. pose proof (Uint63.to_Z_bounded n) as Hn.
  destruct (Uint63.to_Z n) as [|m|m]; simpl; [done | | lia].
  apply binary_round_signed.
Qed.

Lemma opp_signed s x : signed s (Prim2SF x) → signed (negb s) (Prim2SF (- x)).
Proof.
  rewrite FloatAxioms.opp_spec. destruct (Prim2SF x); simpl; congruence.
Qed.

Lemma float_of_Z_signed z : signed (z <? 0) (Prim2SF (float_of_Z z)).
Proof.
  destruct z as [|p|p]; simpl.
  - reflexivity.
  - apply of_uint63_signed.
  - apply (opp_signed false), of_uint63_signed.
Qed.

Lemma div_eucl_nonneg a b : 0 <= a → 0 <= fst (Z.div_eucl a (Z.pos b)).
Proof.
  intros Ha. change (fst (Z.div_eucl a (Z.pos b))) with (a / Z.pos b).
  apply Z.div_pos; lia.
Qed.

(** Dividing by a number that is finite and not zero: the signs
    combine. *)
Lemma div_signed s x sy my ey y :
  signed s (Prim2SF x) → Prim2SF y = S754_finite sy my ey →
  signed (xorb s sy) (Prim2SF (x / y)).
Proof.
  intros Hx Hy. rewrite FloatAxioms.div_spec, Hy. unfold SF64div.
  destruct (Prim2SF x) as [sx|sx| |sx mx ex]; simpl in *; try congruence; [].
  subst s. unfold SFdiv_core_binary.
  set (m' := match _ with Z0 => Z.pos mx | Z.pos _ => _ | Z.neg _ => 0 end).
  assert (0 <= m') as Hm'.
  { subst m'. destruct (_ - _ - _); [lia | | lia].
    rewrite Z.shiftl_mul_pow2 by lia. apply Z.mul_nonneg_nonneg; [lia |].
    apply Z.pow_nonneg. lia. }
  pose proof (div_eucl_nonneg m' my Hm') as Hq.
  destruct (Z.div_eucl m' (Z.pos my)) as [q r]. simpl in Hq.
  by apply binary_round_aux_signed.
Qed.

(** A number that is neither a NaN nor below 1 is positive, and zero
    divided by it is zero. *)
Lemma zero_div_not_below_one s d :
  signed s (Prim2SF d) → (d <? 1)%float = false → (0 / d)%float = 0%float.
Proof.
  intros Hd Hlt. apply Prim2SF_inj.
  rewrite FloatAxioms.div_spec. rewrite FloatAxioms.ltb_spec in Hlt.
  change (Prim2SF 0) with (S754_zero false).
  change (Prim2SF 1) with (S754_finite false 4503599627370496 (-52)) in Hlt.
  destruct (Prim2SF d) as [sd|sd| |sd md ed]; simpl in *.
  - discriminate Hlt.
  - by destruct sd.
  - done.
  - by destruct sd.
Qed.

End FloatFacts.

(** ** The merge of the findings *)

Module MergeFacts.
Import Schemas Grammar Samples.

Lemma overlaps_refl e : overlaps e e = true.
Proof. unfold overlaps. rewrite !Z.sub_diag. reflexivity. Qed.

Lemma overlaps_same_key a b : pos_key a = pos_key b → overlaps a b = true.
Proof.
  unfold pos_key, overlaps. intros [= -> -> _]. rewrite !Z.sub_diag. reflexivity.
Qed.

(** *** The set of seen keys mirrors the accepted list *)

Lemma keys_of_init : keys_of ([], ∅).
Proof.
  intros k; simpl; split.
  - intros H; set_solver.
  - intros (e & H & _). set_solver.
Qed.

Lemma keys_of_push l s x :
  keys_of (l, s) → keys_of (l ++ [x], {[pos_key x]} ∪ s).
Proof.
  intros H k; simpl. rewrite elem_of_union, elem_of_singleton, (H k); simpl.
  split.
  - intros [-> | (e & He & Hk)].
    + exists x. split; [set_solver | done].
    + exists e. split; [set_solver | done].
  - intros (e & He & Hk). apply elem_of_app in He as [He | He].
    + right. eauto.
    + left. apply list_elem_of_singleton in He. congruence.
Qed.

Lemma api_step_keys st x : keys_of st → keys_of (api_step st x).
Proof.
  destruct st as [l s]; unfold api_step. case_bool_decide; auto using keys_of_push.
Qed.

Lemma local_step_keys st x : keys_of st → keys_of (local_step st x).
Proof.
  destruct st as [l s]; unfold local_step; simpl.
  destruct (negb _ && _); auto using keys_of_push.
Qed.

Lemma after_api_keys api : keys_of (after_api api).
Proof.
  unfold after_api. generalize keys_of_init.
  generalize (([], ∅) : merge_state).
  induction api; simpl; auto using api_step_keys.
Qed.

Lemma after_local_keys local api : keys_of (after_local local api).
Proof.
  unfold after_local. generalize (after_api_keys api).
  generalize (after_api api).
  induction local; simpl; auto using local_step_keys.
Qed.

(** *** One step of each loop *)

Lemma existsb_overlaps_false x l :
  existsb (overlaps x) l = false ↔ ∀ e, e ∈ l → overlaps x e = false.
Proof.
  induction l as [|y l IH]; simpl.
  - split; [intros _ e He; inversion He | done].
  - rewrite orb_false_iff, IH. split.
    + intros [H1 H2] e He. apply elem_of_cons in He as [-> | He]; auto.
    + intros H. split; [apply H; left | intros e He; apply H; by right].
Qed.

Lemma existsb_overlaps_true x l :
  existsb (overlaps x) l = true ↔ ∃ e, e ∈ l ∧ overlaps x e = true.
Proof. rewrite existsb_exists. setoid_rewrite list_elem_of_In. done. Qed.

Lemma api_step_accept st x :
  keys_of st → (∀ e, e ∈ fst st → pos_key e ≠ pos_key x) →
  api_step st x = (fst st ++ [x], {[pos_key x]} ∪ snd st).
Proof.
  destruct st as [l s]; intros H Hx; unfold api_step; simpl in *.
  rewrite bool_decide_true; [done |].
  intros Hin. apply H in Hin as (e & He & Hk). by apply (Hx e).
Qed.

Lemma api_step_reject st x :
  keys_of st → (∃ e, e ∈ fst st ∧ pos_key e = pos_key x) →
  api_step st x = st.
Proof.
  destruct st as [l s]; intros H Hx; unfold api_step; simpl in *.
  rewrite bool_decide_false; [done |].
  intros Hnin. apply Hnin, H. exact Hx.
Qed.

(** In the second loop the key test never decides: a finding whose key
    was seen overlaps the finding that has this key. *)
Lemma local_step_accept st x :
  keys_of st → (∀ e, e ∈ fst st → overlaps x e = false) →
  local_step st x = (fst st ++ [x], {[pos_key x]} ∪ snd st).
Proof.
  destruct st as [l s]; intros H Hx; unfold local_step; simpl in *.
  apply existsb_overlaps_false in Hx. rewrite Hx; simpl.
  rewrite bool_decide_true; [done |].
  intros Hin. apply H in Hin as (e & He & Hk); simpl in *.
  rewrite existsb_overlaps_false in Hx.
  specialize (Hx e He). symmetry in Hk. apply overlaps_same_key in Hk. congruence.
Qed.

Lemma local_step_reject st x :
  (∃ e, e ∈ fst st ∧ overlaps x e = true) → local_step st x = st.
Proof.
  destruct st as [l s]; intros Hx; unfold local_step; simpl in *.
  apply existsb_overlaps_true in Hx. rewrite Hx. done.
Qed.

(** *** The accepted list, one finding at a time *)

Lemma api_accepted_snoc_new pre x :
  (∀ e, e ∈ api_accepted pre → pos_key e ≠ pos_key x) →
  api_accepted (pre ++ [x]) = api_accepted pre ++ [x].
Proof.
  intros H. unfold api_accepted, after_api. rewrite fold_left_app; simpl.
  rewrite api_step_accept; [done | apply after_api_keys | exact H].
Qed.

Lemma api_accepted_snoc_dup pre x :
  (∃ e, e ∈ api_accepted pre ∧ pos_key e = pos_key x) →
  api_accepted (pre ++ [x]) = api_accepted pre.
Proof.
  intros H. unfold api_accepted, after_api. rewrite fold_left_app; simpl.
  rewrite api_step_reject; [done | apply after_api_keys | exact H].
Qed.

Lemma accepted_snoc_new pre x api :
  (∀ e, e ∈ accepted pre api → overlaps x e = false) →
  accepted (pre ++ [x]) api = accepted pre api ++ [x].
Proof.
  intros H. unfold accepted, after_local. rewrite fold_left_app; simpl.
  rewrite local_step_accept; [done | apply after_local_keys | exact H].
Qed.

Lemma accepted_snoc_overlap pre x api :
  (∃ e, e ∈ accepted pre api ∧ overlaps x e = true) →
  accepted (pre ++ [x]) api = accepted pre api.
Proof.
  intros H. unfold accepted, after_local. rewrite fold_left_app; simpl.
  rewrite local_step_reject; [done | exact H].
Qed.

Lemma api_accepted_snoc_cases pre x :
  ((∃ e, e ∈ api_accepted pre ∧ pos_key e = pos_key x)
     ∧ api_accepted (pre ++ [x]) = api_accepted pre)
  ∨ ((∀ e, e ∈ api_accepted pre → pos_key e ≠ pos_key x)
     ∧ api_accepted (pre ++ [x]) = api_accepted pre ++ [x]).
Proof.
  destruct (decide (pos_key x ∈ snd (after_api pre))) as [Hin | Hnin].
  - left. apply after_api_keys in Hin. split; [done |].
    by apply api_accepted_snoc_dup.
  - right. assert (∀ e, e ∈ api_accepted pre → pos_key e ≠ pos_key x) as H.
    { intros e He Hk. apply Hnin, after_api_keys. eauto. }
    split; [done |]. by apply api_accepted_snoc_new.
Qed.

Lemma accepted_snoc_cases pre x api :
  ((∃ e, e ∈ accepted pre api ∧ overlaps x e = true)
     ∧ accepted (pre ++ [x]) api = accepted pre api)
  ∨ ((∀ e, e ∈ accepted pre api → overlaps x e = false)
     ∧ accepted (pre ++ [x]) api = accepted pre api ++ [x]).
Proof.
  destruct (existsb (overlaps x) (accepted pre api)) eqn:Hex.
  - left. apply existsb_overlaps_true in Hex. split; [done |].
    by apply accepted_snoc_overlap.
  - right. rewrite existsb_overlaps_false in Hex. split; [done |].
    by apply accepted_snoc_new.
Qed.

(** *** The final sort *)

Lemma insert_by_start_perm x l : insert_by_start x l ≡ₚ x :: l.
Proof.
  induction l as [|y l IH]; simpl; [done |].
  destruct (_ <=? _); [done |]. rewrite IH. apply perm_swap.
Qed.

Lemma sort_by_start_perm l : sort_by_start l ≡ₚ l.
Proof.
  induction l as [|x l IH]; simpl; [done |].
  rewrite insert_by_start_perm. by rewrite IH.
Qed.

Lemma insert_by_start_sorted x l :
  sorted_by_start l → sorted_by_start (insert_by_start x l).
Proof.
  unfold sorted_by_start.
  induction l as [|y l IH]; simpl; intros Hs.
  - repeat constructor.
  - destruct (Z.leb_spec (fst (position x)) (fst (position y))) as [Hle | Hlt].
    + constructor; [done |]. constructor. exact Hle.
    + apply Sorted_inv in Hs as [Hs Hhd]. constructor; [by apply IH |].
      destruct l as [|z l]; simpl.
      * constructor. unfold start_le. lia.
      * destruct (Z.leb_spec (fst (position x)) (fst (position z))).
        -- constructor. unfold start_le. lia.
        -- constructor. by apply HdRel_inv in Hhd.
Qed.

Lemma sort_by_start_sorted l : sorted_by_start (sort_by_start l).
Proof.
  induction l as [|x l IH]; simpl.
  - constructor.
  - by apply insert_by_start_sorted.
Qed.

(** The sort is stable: a sorted list is left as it is. *)
Lemma sort_by_start_id l : sorted_by_start l → sort_by_start l = l.
Proof.
  unfold sorted_by_start.
  induction l as [|x l IH]; simpl; intros Hs; [done |].
  apply Sorted_inv in Hs as [Hs Hhd]. rewrite IH by done.
  destruct Hhd as [|y l Hxy]; simpl; [done |].
  unfold start_le in Hxy. apply Z.leb_le in Hxy. by rewrite Hxy.
Qed.

Lemma start_le_trans : Transitive start_le.
Proof. unfold start_le. intros a b c. lia. Qed.

Lemma sublist_StronglySorted {A} (R : relation A) (k l : list A) :
  sublist k l → StronglySorted R l → StronglySorted R k.
Proof.
  induction 1 as [|x k l Hkl IH|x k l Hkl IH]; intros Hs.
  - constructor.
  - apply StronglySorted_inv in Hs as [Hs Hall]. constructor; [by apply IH |].
    rewrite Forall_forall in Hall |- *. intros y Hy. apply Hall.
    by eapply elem_of_sublist.
  - apply StronglySorted_inv in Hs as [Hs _]. by apply IH.
Qed.

Lemma sublist_sorted_by_start k l :
  sublist k l → sorted_by_start l → sorted_by_start k.
Proof.
  unfold sorted_by_start. intros Hkl Hs.
  apply StronglySorted_Sorted, (sublist_StronglySorted _ k l Hkl).
  apply Sorted_StronglySorted; [apply start_le_trans | exact Hs].
Qed.

(** *** The loop of the source and the filter of the specification *)

Lemma fold_local_filter l kept seen :
  keys_of (kept, seen) →
  fst (fold_left local_step l (kept, seen)) = overlap_filter_from kept l.
Proof.
  revert kept seen. induction l as [|x l IH]; intros kept seen Hk;
    cbn [fold_left overlap_filter_from]; [done |].
  destruct (existsb (overlaps x) kept) eqn:Hex.
  - rewrite local_step_reject; [by apply IH |].
    by apply existsb_overlaps_true in Hex.
  - rewrite local_step_accept; [| done |].
    + apply IH. by apply keys_of_push.
    + by apply existsb_overlaps_false.
Qed.

Lemma accepted_local_only local : accepted local [] = overlap_filter local.
Proof. apply fold_local_filter, keys_of_init. Qed.

Lemma overlap_filter_from_kept kept l e :
  e ∈ kept → e ∈ overlap_filter_from kept l.
Proof.
  revert kept. induction l as [|x l IH]; intros kept He; simpl; [done |].
  destruct (existsb _ _); apply IH; set_solver.
Qed.

Lemma overlap_filter_from_covers kept l x :
  x ∈ l → ∃ e, e ∈ overlap_filter_from kept l ∧ overlaps x e = true.
Proof.
  revert kept. induction l as [|y l IH]; intros kept Hx; [inversion Hx |].
  simpl. apply elem_of_cons in Hx as [-> | Hx].
  - destruct (existsb (overlaps y) kept) eqn:Hex.
    + apply existsb_overlaps_true in Hex as (e & He & Hov).
      exists e. split; [by apply overlap_filter_from_kept | done].
    + exists y. split; [| apply overlaps_refl].
      apply overlap_filter_from_kept. set_solver.
  - destruct (existsb _ _); by apply IH.
Qed.

Lemma overlap_filter_from_sublist kept l :
  ∃ l', overlap_filter_from kept l = kept ++ l' ∧ sublist l' l.
Proof.
  revert kept. induction l as [|x l IH]; intros kept; simpl.
  - exists []. by rewrite app_nil_r.
  - destruct (existsb _ _).
    + destruct (IH kept) as (l' & -> & Hs). exists l'. split; [done |].
      by apply sublist_cons.
    + destruct (IH (kept ++ [x])) as (l' & -> & Hs). exists (x :: l').
      split; [by rewrite <- app_assoc | by apply sublist_skip].
Qed.

Lemma overlap_filter_sublist l : sublist (overlap_filter l) l.
Proof.
  destruct (overlap_filter_from_sublist [] l) as (l' & H & Hs).
  unfold overlap_filter. by rewrite H.
Qed.

(** *** Which findings are accepted *)

Lemma api_accepted_elem api e : e ∈ api_accepted api → e ∈ api.
Proof.
  induction api as [|x pre IH] using rev_ind; [done |].
  destruct (api_accepted_snoc_cases pre x) as [[_ ->] | [_ ->]]; set_solver.
Qed.

Lemma api_accepted_all api e :
  distinct_keys api → e ∈ api → e ∈ api_accepted api.
Proof.
  induction api as [|x pre IH] using rev_ind; [done |].
  intros Hd He.
  assert (distinct_keys pre) as Hd'.
  { intros a b Ha Hb. apply Hd; set_solver. }
  destruct (api_accepted_snoc_cases pre x) as [[(e' & He' & Hk) ->] | [_ ->]].
  - apply elem_of_app in He as [He | He]; [by apply IH |].
    apply list_elem_of_singleton in He as ->.
    assert (e' = x) as <-; [| done].
    apply Hd; [| | done]; [| set_solver].
    apply api_accepted_elem in He'. set_solver.
  - apply elem_of_app in He as [He | He]; [| set_solver].
    apply elem_of_app. left. by apply IH.
Qed.

Lemma accepted_api_part local api e :
  e ∈ api_accepted api → e ∈ accepted local api.
Proof.
  induction local as [|x pre IH] using rev_ind; [done |].
  intros He. destruct (accepted_snoc_cases pre x api) as [[_ ->] | [_ ->]]; set_solver.
Qed.

Lemma accepted_elem local api e :
  e ∈ accepted local api →
  e ∈ api_accepted api
  ∨ (e ∈ local ∧ ∀ a, a ∈ api_accepted api → overlaps e a = false).
Proof.
  induction local as [|x pre IH] using rev_ind; [by left |].
  destruct (accepted_snoc_cases pre x api) as [[_ ->] | [Hnew ->]].
  - intros He. destruct (IH He) as [? | [? ?]]; [by left | right].
    split; [set_solver | done].
  - intros He. apply elem_of_app in He as [He | He].
    + destruct (IH He) as [? | [? ?]]; [by left | right].
      split; [set_solver | done].
    + apply list_elem_of_singleton in He as ->. right. split; [set_solver |].
      intros a Ha. by apply Hnew, accepted_api_part.
Qed.

Lemma accepted_all local api e :
  non_overlapping local →
  e ∈ local → (∀ a, a ∈ api_accepted api → overlaps e a = false) →
  e ∈ accepted local api.
Proof.
  induction local as [|x pre IH] using rev_ind; [by inversion 2 |].
  intros Hn He Hfree.
  assert (non_overlapping pre) as Hn'.
  { intros a b Ha Hb. apply Hn; set_solver. }
  destruct (accepted_snoc_cases pre x api) as [[(e' & He' & Hov) ->] | [_ ->]].
  - apply elem_of_app in He as [He | He]; [by apply IH |].
    apply list_elem_of_singleton in He as ->.
    destruct (accepted_elem _ _ _ He') as [Hapi | [Hpre _]].
    + rewrite (Hfree e' Hapi) in Hov. discriminate.
    + assert (x = e') as ->; [| done].
      apply Hn; [set_solver | set_solver | done].
  - apply elem_of_app in He as [He | He]; [| set_solver].
    apply elem_of_app. left. by apply IH.
Qed.

Lemma merge_elem_accepted local api e :
  e ∈ _merge_errors local api ↔ e ∈ accepted local api.
Proof. unfold _merge_errors. by rewrite sort_by_start_perm. Qed.

(** With no clash inside either source, the accepted findings are the
    remote ones and the local ones that overlap no remote one. *)
Lemma merge_elem_iff local api e :
  distinct_keys api → non_overlapping local →
  e ∈ _merge_errors local api ↔
  e ∈ api ∨ (e ∈ local ∧ ∀ a, a ∈ api → overlaps e a = false).
Proof.
  intros Hd Hn. rewrite merge_elem_accepted. split.
  - intros He. destruct (accepted_elem _ _ _ He) as [Ha | [Hl Hfree]].
    + left. by apply api_accepted_elem.
    + right. split; [done |]. intros a Ha. by apply Hfree, api_accepted_all.
  - intros [Ha | [Hl Hfree]].
    + by apply accepted_api_part, api_accepted_all.
    + apply accepted_all; [done | done |].
      intros a Ha. by apply Hfree, api_accepted_elem.
Qed.

Lemma distinct_keys_perm l l' : l ≡ₚ l' → distinct_keys l → distinct_keys l'.
Proof. intros Hp H a b Ha Hb. apply H; by rewrite Hp. Qed.

Lemma non_overlapping_perm l l' : l ≡ₚ l' → non_overlapping l → non_overlapping l'.
Proof. intros Hp H a b Ha Hb. apply H; by rewrite Hp. Qed.

Lemma api_accepted_NoDup api : NoDup (api_accepted api).
Proof.
  induction api as [|x pre IH] using rev_ind; [constructor |].
  destruct (api_accepted_snoc_cases pre x) as [[_ ->] | [Hnew ->]]; [done |].
  apply NoDup_app. split_and!; [done | | apply NoDup_singleton].
  intros e He Hx. apply list_elem_of_singleton in Hx as ->. by apply (Hnew x).
Qed.

Lemma accepted_NoDup local api : NoDup (accepted local api).
Proof.
  induction local as [|x pre IH] using rev_ind; [apply api_accepted_NoDup |].
  destruct (accepted_snoc_cases pre x api) as [[_ ->] | [Hnew ->]]; [done |].
  apply NoDup_app. split_and!; [done | | apply NoDup_singleton].
  intros e He Hx. apply list_elem_of_singleton in Hx as ->.
  specialize (Hnew x He). rewrite overlaps_refl in Hnew. discriminate.
Qed.

Lemma merge_NoDup local api : NoDup (_merge_errors local api).
Proof.
  unfold _merge_errors. rewrite sort_by_start_perm. apply accepted_NoDup.
Qed.

(** *** The claims about the merge *)

(** C3, as stated, does not hold: of two local findings that overlap
    each other, the one that comes first is kept, so swapping them
    changes the accepted set. *)
Lemma merge_depends_on_order : ¬ merge_order_independent.
Proof.
  intros H.
  pose (a := finding GRAMMAR MEDIUM 0 10 "first").
  pose (b := finding GRAMMAR MEDIUM 3 12 "second").
  assert (a ∈ _merge_errors [b; a] []) as Hin.
  { apply (H [a; b] [b; a] [] []); [apply perm_swap | done |].
    vm_compute. left. }
  vm_compute in Hin.
  apply list_elem_of_singleton in Hin. discriminate Hin.
Qed.

(** C3, amended.  The merge is a function of its two lists, and when no
    two different remote findings share (start, end, type) and no two
    different local findings overlap each other, permuting either list
    leaves the accepted findings unchanged, as a set and as a multiset. *)
Theorem merge_order_independent_when_separated
    (local local' api api' : list Error) :
  distinct_keys api → non_overlapping local →
  local ≡ₚ local' → api ≡ₚ api' →
  (∀ e, e ∈ _merge_errors local api ↔ e ∈ _merge_errors local' api')
  ∧ _merge_errors local api ≡ₚ _merge_errors local' api'.
Proof.
  intros Hd Hn Hl Ha.
  assert (∀ e, e ∈ _merge_errors local api ↔ e ∈ _merge_errors local' api') as Hset.
  { intros e. rewrite !merge_elem_iff;
      eauto using distinct_keys_perm, non_overlapping_perm.
    by setoid_rewrite Hl; setoid_rewrite Ha. }
  split; [done |].
  apply NoDup_Permutation; auto using merge_NoDup.
Qed.

Lemma merge_order_witness :
  let a := finding GRAMMAR MEDIUM 0 10 "first" in
  let b := finding SPELLING HIGH 20 25 "second" in
  let r := finding STYLE LOW 40 48 "remote" in
  (∀ e, e ∈ _merge_errors [a; b] [r] ↔ e ∈ _merge_errors [b; a] [r])
  ∧ _merge_errors [a; b] [r] ≡ₚ _merge_errors [b; a] [r].
Proof.
  intros a b r.
  apply (merge_order_independent_when_separated [a; b] [b; a] [r] [r]).
  - intros x y Hx Hy _. apply list_elem_of_singleton in Hx, Hy. congruence.
  - intros x y Hx Hy Hov.
    apply elem_of_cons in Hx as [-> | Hx]; apply elem_of_cons in Hy as [-> | Hy];
      try apply list_elem_of_singleton in Hx as ->;
      try apply list_elem_of_singleton in Hy as ->;
      first [reflexivity | discriminate Hov].
  - apply perm_swap.
  - reflexivity.
Defined.

(** C4, as stated, does not hold at the boundary of the tolerance: the
    code calls two findings overlapping when their starts and their ends
    are both less than 5 apart, so a local finding on (5, 15) is accepted
    after the remote finding on (0, 10), from which it lies exactly 5
    characters away at both ends, and both are returned. *)
Lemma local_accepted_at_five : ¬ local_accepted_outside_tolerance.
Proof.
  intros H.
  pose (r := finding GRAMMAR MEDIUM 0 10 "remote").
  pose (l := finding SPELLING MEDIUM 5 15 "local").
  specialize (H [] [r] l eq_refl).
  apply Forall_inv in H. apply H. unfold within_tolerance. simpl. lia.
Qed.

(** C4, amended.  A remote finding is appended to the accepted list
    unless a finding accepted before it has the same start, end and
    type, in which case it is dropped.  The local findings are examined
    after all remote ones: a local finding is appended when from every
    finding accepted before it its start or its end lies 5 characters or
    more away, and dropped when from one of them its start and its end
    both lie less than 5 characters away.  The result is the accepted
    list in ascending order of span start. *)
Theorem merge_acceptance_rules (local api pre : list Error) (x : Error) :
  (Forall (λ e, ¬ (fst (position e) = fst (position x)
                   ∧ snd (position e) = snd (position x)
                   ∧ type e = type x)) (api_accepted pre) →
     api_accepted (pre ++ [x]) = api_accepted pre ++ [x])
  ∧ (Exists (λ e, fst (position e) = fst (position x)
                  ∧ snd (position e) = snd (position x)
                  ∧ type e = type x) (api_accepted pre) →
     api_accepted (pre ++ [x]) = api_accepted pre)
  ∧ accepted [] api = api_accepted api
  ∧ (Forall (λ e, 5 <= Z.abs (fst (position x) - fst (position e))
                  ∨ 5 <= Z.abs (snd (position x) - snd (position e)))
       (accepted pre api) →
     accepted (pre ++ [x]) api = accepted pre api ++ [x])
  ∧ (Exists (λ e, Z.abs (fst (position x) - fst (position e)) < 5
                  ∧ Z.abs (snd (position x) - snd (position e)) < 5)
       (accepted pre api) →
     accepted (pre ++ [x]) api = accepted pre api)
  ∧ _merge_errors local api ≡ₚ accepted local api
  ∧ Sorted (λ a b, fst (position a) <= fst (position b)) (_merge_errors local api).
Proof.
  split_and!.
  - rewrite Forall_forall. intros H. apply api_accepted_snoc_new.
    intros e He Hk. apply (H e He). unfold pos_key in Hk. by simplify_eq.
  - rewrite Exists_exists. intros (e & He & H1 & H2 & H3).
    apply api_accepted_snoc_dup. exists e. split; [done |].
    unfold pos_key. by rewrite H1, H2, H3.
  - reflexivity.
  - rewrite Forall_forall. intros H. apply accepted_snoc_new.
    intros e He. unfold overlaps. destruct (H e He) as [H5 | H5].
    + apply andb_false_intro1. by apply Z.ltb_ge.
    + apply andb_false_intro2. by apply Z.ltb_ge.
  - rewrite Exists_exists. intros (e & He & H1 & H2).
    apply accepted_snoc_overlap. exists e. split; [done |].
    unfold overlaps. apply andb_true_intro. by rewrite !Z.ltb_lt.
  - apply sort_by_start_perm.
  - apply sort_by_start_sorted.
Qed.

Lemma merge_acceptance_witness :
  let r1 := finding STYLE LOW 40 48 "remote" in
  let r2 := finding STYLE HIGH 40 48 "same span and type" in
  let r3 := finding GRAMMAR LOW 40 48 "same span, other type" in
  let l1 := finding GRAMMAR MEDIUM 0 10 "far away" in
  let l2 := finding SPELLING MEDIUM 44 52 "four from the remote one at both ends" in
  let l3 := finding SPELLING MEDIUM 45 53 "five from the remote one at both ends" in
  let l4 := finding SPELLING MEDIUM 41 90 "near start, far end" in
  api_accepted ([r1] ++ [r3]) = api_accepted [r1] ++ [r3]
  ∧ api_accepted ([r1] ++ [r2]) = api_accepted [r1]
  ∧ accepted ([] ++ [l1]) [r1] = accepted [] [r1] ++ [l1]
  ∧ accepted ([l1] ++ [l2]) [r1] = accepted [l1] [r1]
  ∧ accepted ([l1] ++ [l3]) [r1] = accepted [l1] [r1] ++ [l3]
  ∧ accepted ([l1] ++ [l4]) [r1] = accepted [l1] [r1] ++ [l4].
Proof.
  intros r1 r2 r3 l1 l2 l3 l4. split_and!.
  - apply (merge_acceptance_rules [] [] [r1] r3). compute_done.
  - apply (merge_acceptance_rules [] [] [r1] r2). compute_done.
  - apply (merge_acceptance_rules [] [r1] [] l1). compute_done.
  - apply (merge_acceptance_rules [] [r1] [l1] l2). compute_done.
  - apply (merge_acceptance_rules [] [r1] [l1] l3). compute_done.
  - apply (merge_acceptance_rules [] [r1] [l1] l4). compute_done.
Defined.

(** C9, as stated, does not hold: the merge sorts, so a local list that
    is not in ascending order of start comes back reordered. *)
Lemma local_only_is_reordered : ¬ local_only_keeps_order.
Proof.
  intros H.
  specialize (H [finding SPELLING HIGH 30 35 "later in the text";
                 finding GRAMMAR MEDIUM 0 20 "earlier in the text"]).
  vm_compute in H. discriminate H.
Qed.

(** C9, amended.  With no remote findings the merge returns the
    overlap-filtered local list sorted by span start, the sort being
    stable; it is the filtered list in its original order when the local
    list is already in ascending order of start.  The filtered list is a
    subsequence of the local list, and a local finding is left out only
    if it overlaps a finding that is kept. *)
Theorem merge_local_only (local : list Error) :
  _merge_errors local [] = sort_by_start (overlap_filter local)
  ∧ (sorted_by_start local → _merge_errors local [] = overlap_filter local)
  ∧ sublist (overlap_filter local) local
  ∧ (∀ x, x ∈ local → ∃ e, e ∈ _merge_errors local [] ∧ overlaps x e = true).
Proof.
  assert (_merge_errors local [] = sort_by_start (overlap_filter local)) as Heq.
  { unfold _merge_errors. fold (accepted local []). by rewrite accepted_local_only. }
  split_and!.
  - exact Heq.
  - intros Hs. rewrite Heq. apply sort_by_start_id.
    apply (sublist_sorted_by_start _ local); [apply overlap_filter_sublist | exact Hs].
  - apply overlap_filter_sublist.
  - intros x Hx. destruct (overlap_filter_from_covers [] local x Hx) as (e & He & Hov).
    exists e. split; [| done]. rewrite Heq, sort_by_start_perm. exact He.
Qed.

Lemma merge_local_only_witness :
  let a := finding GRAMMAR MEDIUM 0 20 "earlier in the text" in
  let b := finding SPELLING HIGH 3 22 "overlaps the first" in
  let c := finding SPELLING HIGH 30 35 "later in the text" in
  _merge_errors [a; b; c] [] = overlap_filter [a; b; c]
  ∧ ∃ e, e ∈ _merge_errors [a; b; c] [] ∧ overlaps b e = true.
Proof.
  intros a b c.
  destruct (merge_local_only [a; b; c]) as (_ & Hsorted & _ & Hcover).
  split.
  - apply Hsorted. repeat constructor; unfold start_le; simpl; lia.
  - apply Hcover. right. left.
Defined.

End MergeFacts.

(** ** The grammar score *)

Module ScoreFacts.
Import Py Schemas Grammar Samples FloatFacts.

(** *** Rounding to two decimals *)

Lemma round_half_even_scaled_nonneg m e : 0 <= round_half_even_scaled m e.
Proof.
  unfold round_half_even_scaled. destruct (0 <=? e) eqn:He.
  - apply Z.mul_nonneg_nonneg; [lia | apply Z.pow_nonneg; lia].
  - assert (0 < 2 ^ (- e)) as Hd by (apply Z.pow_pos_nonneg; lia).
    assert (0 <= Z.pos m * 100 / 2 ^ (- e)) as Hq by (apply Z.div_pos; lia).
    destruct (2 * _ ?= 2 ^ (- e)); [destruct (Z.even _) | |]; lia.
Qed.

Lemma round_half_even_scaled_nearest m e :
  nearest_hundredth m e (round_half_even_scaled m e).
Proof.
  unfold nearest_hundredth, round_half_even_scaled. destruct (0 <=? e) eqn:He; [done |].
  assert (0 < 2 ^ (- e)) as Hd by (apply Z.pow_pos_nonneg; lia).
  set (d := 2 ^ (- e)) in *. set (n := Z.pos m * 100).
  pose proof (Z.div_mod n d ltac:(lia)) as Hn.
  pose proof (Z.mod_pos_bound n d Hd) as Hr.
  set (q := n / d) in *. set (r := n mod d) in *. cbv zeta.
  clearbody q r n d.
  assert (n - q * d = r) as Hq0 by lia.
  assert (n - (q + 1) * d = r - d) as Hq1 by lia.
  destruct (Z.compare_spec (2 * r) d) as [Hc | Hc | Hc].
  - destruct (Z.even q) eqn:Hq.
    + rewrite Hq0. split; [lia | done].
    + rewrite Hq1. split; [lia |]. intros _. rewrite Z.even_add, Hq. reflexivity.
  - rewrite Hq0. split; [lia | intros ?; lia].
  - rewrite Hq1. split; [lia | intros ?; lia].
Qed.

(** The integer is determined by [nearest_hundredth]. *)
Lemma nearest_hundredth_unique m e z :
  nearest_hundredth m e z → z = round_half_even_scaled m e.
Proof.
  unfold nearest_hundredth, round_half_even_scaled. destruct (0 <=? e) eqn:He; [done |].
  assert (0 < 2 ^ (- e)) as Hd by (apply Z.pow_pos_nonneg; lia).
  set (d := 2 ^ (- e)) in *. set (n := Z.pos m * 100).
  pose proof (Z.div_mod n d ltac:(lia)) as Hn.
  pose proof (Z.mod_pos_bound n d Hd) as Hr.
  set (q := n / d) in *. set (r := n mod d) in *. cbv zeta.
  clearbody q r n d.
  intros [Hnear Htie].
  assert (n - z * d = r - (z - q) * d) as Hz0 by lia.
  rewrite Hz0 in Hnear, Htie.
  assert (z = q ∨ z = q + 1) as Hz by nia.
  destruct (Z.compare_spec (2 * r) d) as [Hc | Hc | Hc].
  - assert (Z.even z = true) as Hev by (apply Htie; destruct Hz as [-> | ->]; lia).
    destruct Hz as [-> | ->].
    + by rewrite Hev.
    + rewrite Z.even_add in Hev. destruct (Z.even q); [discriminate Hev | done].
  - destruct Hz as [-> | ->]; lia.
  - destruct Hz as [-> | ->]; lia.
Qed.

(** [round2] on a finite number below 2^46 in magnitude: the nearest
    hundredth, as the binary64 number nearest to it. *)
Lemma round2_finite x s m e :
  Prim2SF x = S754_finite s m e → (abs x <? 0x1p46)%float = true →
  round2 x = (if s then - (float_of_Z (round_half_even_scaled m e) / 100)
              else float_of_Z (round_half_even_scaled m e) / 100)%float.
Proof.
  intros Hx Hsmall. unfold round2. rewrite Hx, Hsmall. cbv zeta.
  destruct (round_half_even_scaled m e =? 0) eqn:Hz; [| done].
  apply Z.eqb_eq in Hz. rewrite Hz. by destruct s.
Qed.

Lemma round2_signed x : signed false (Prim2SF x) → signed false (Prim2SF (round2 x)).
Proof.
  intros Hx. unfold round2.
  destruct (Prim2SF x) as [s|s| |s m e] eqn:E; try by rewrite E.
  simpl in Hx. subst s. destruct (abs x <? 0x1p46)%float; [| by rewrite E].
  cbv zeta. destruct (round_half_even_scaled m e =? 0); [done |].
  pose proof (round_half_even_scaled_nonneg m e) as Hz.
  pose proof (float_of_Z_signed (round_half_even_scaled m e)) as Hs.
  replace (round_half_even_scaled m e <? 0) with false in Hs by (symmetry; lia).
  by apply (div_signed false _ false 7036874417766400 (-46) 100).
Qed.

(** A zero, and a number from 2^46 on, is its own rounding. *)
Lemma round2_unchanged x :
  signed false (Prim2SF x) →
  (x =? 0)%float = true ∨ (x <? 0x1p46)%float = false → round2 x = x.
Proof.
  intros Hx Hcase. unfold round2.
  destruct (Prim2SF x) as [s|s| |s m e] eqn:E; try done.
  simpl in Hx. subst s.
  assert (abs x = x) as Habs.
  { apply Prim2SF_inj. by rewrite FloatAxioms.abs_spec, E. }
  rewrite Habs. destruct Hcase as [Hzero | ->]; [| done].
  rewrite FloatAxioms.eqb_spec, E in Hzero. discriminate Hzero.
Qed.

Lemma signed_not_below_zero x : signed false (Prim2SF x) → (x <? 0)%float = false.
Proof.
  intros Hx. rewrite FloatAxioms.ltb_spec. change (Prim2SF 0) with (S754_zero false).
  destruct (Prim2SF x) as [s|s| |s m e]; simpl in *; by subst.
Qed.

Lemma max_zero_signed x : signed false (Prim2SF (Py.max 0 x)).
Proof.
  unfold Py.max. destruct (0 <? x)%float eqn:Hlt; [| done].
  rewrite FloatAxioms.ltb_spec in Hlt. change (Prim2SF 0) with (S754_zero false) in Hlt.
  destruct (Prim2SF x) as [s|s| |s m e]; simpl in *; try discriminate Hlt; by destruct s.
Qed.

(** *** The score *)

Lemma total_penalty_fold errors :
  total_penalty errors
  = fold_left (λ acc error, (acc + severity_weights (severity error))%float)
      errors 0%float.
Proof.
  unfold total_penalty, Py.sum. generalize 0%float.
  induction errors as [|x l IH]; intros a; simpl; [done | apply IH].
Qed.

Lemma expected_errors_signed word_count :
  signed (word_count <? 0) (Prim2SF (float_of_Z word_count / 50)).
Proof.
  rewrite <- (xorb_false_r (word_count <? 0)).
  apply (div_signed _ _ false 7036874417766400 (-47) 50);
    [apply float_of_Z_signed | reflexivity].
Qed.

Lemma score_without_findings word_count : _calculate_score [] word_count = 100%float.
Proof.
  unfold _calculate_score. destruct (decide (word_count = 0)); [done |].
  cbv zeta. change (total_penalty []) with 0%float.
  assert ((0 / Py.max (float_of_Z word_count / 50) 1)%float = 0%float) as ->; [| done].
  unfold Py.max. destruct (_ <? 1)%float eqn:Hlt; [done |].
  apply (zero_div_not_below_one (word_count <? 0));
    [apply expected_errors_signed | exact Hlt].
Qed.

Lemma score_not_below_zero errors word_count :
  (_calculate_score errors word_count <? 0)%float = false.
Proof.
  unfold _calculate_score. destruct (decide (word_count = 0)); [done |].
  apply signed_not_below_zero, round2_signed, max_zero_signed.
Qed.

(** C6, as stated, does not hold.  With no word counted the score is
    100 whatever was found, where the formula gives 60 for one finding of
    high severity; and the score is rounded to two decimals, 96.67 where
    the formula gives 96.66666666666667. *)
Lemma score_is_not_the_formula :
  ¬ score_is_clamped_formula
  ∧ _calculate_score [finding STYLE LOW 0 4 "wordy"] 150 = 96.67%float
  ∧ spec_grammar_score [finding STYLE LOW 0 4 "wordy"] 150 = 96.66666666666667%float.
Proof.
  split_and!; [| reflexivity | reflexivity].
  intros H.
  specialize (H [finding SPELLING HIGH 0 2 "typo"] 0 ltac:(lia)).
  apply (f_equal Prim2SF) in H. vm_compute in H. discriminate H.
Qed.

(** C6, amended.  The grammar score is 100 when the word count is 0,
    whatever was found.  Otherwise, in binary64 arithmetic, the weights
    0.5, 1, 2 and 3 of the findings of low, medium, high and critical
    severity are added up from 0 in the order of the list, the sum is
    divided by word_count/50, or by 1 when that is below 1, and 20 times
    the quotient is taken from 100; the result, or 0 when the result is
    not above 0, is rounded to two decimals.  There is no upper bound
    in the computation.  Rounded to two decimals means: for a value
    [m * 2^e] below 2^46 the score is the binary64 number nearest to
    z/100, where z is the integer nearest to [m * 2^e * 100], the even
    one in a tie; a zero, and a value from 2^46 on, is returned as it
    is.  The score is never below 0, and with no accepted finding it is
    exactly 100. *)
Theorem grammar_score_formula (errors : list Error) (word_count : Z) :
  let penalty :=
    fold_left
      (λ acc error,
         (acc + match severity error with
                | LOW => 0.5
                | MEDIUM => 1
                | HIGH => 2
                | CRITICAL => 3
                end)%float)
      errors 0%float in
  let expected := (float_of_Z word_count / 50)%float in
  let ratio := (penalty / (if expected <? 1 then 1 else expected))%float in
  let raw := (100 - ratio * 20)%float in
  let score := (if 0 <? raw then raw else 0)%float in
  (word_count = 0 → _calculate_score errors word_count = 100%float)
  ∧ (word_count ≠ 0 →
     _calculate_score errors word_count = round2 score
     ∧ ∀ m e,
         Prim2SF score = S754_finite false m e → (score <? 0x1p46)%float = true →
         ∃ z, nearest_hundredth m e z
              ∧ (∀ z', nearest_hundredth m e z' → z' = z)
              ∧ _calculate_score errors word_count = (float_of_Z z / 100)%float)
  ∧ (word_count ≠ 0 →
     (score =? 0)%float = true ∨ (score <? 0x1p46)%float = false →
     _calculate_score errors word_count = score)
  ∧ (_calculate_score errors word_count <? 0)%float = false
  ∧ _calculate_score [] word_count = 100%float.
Proof.
  intros penalty expected ratio raw score.
  assert (word_count ≠ 0 → _calculate_score errors word_count = round2 score) as Hscore.
  { intros Hwc. unfold _calculate_score. destruct (decide (word_count = 0)); [done |].
    cbv zeta. rewrite total_penalty_fold. reflexivity. }
  split_and!.
  - intros ->. reflexivity.
  - intros Hwc. split; [by apply Hscore |].
    intros m e Hfin Hsmall. exists (round_half_even_scaled m e). split_and!.
    + apply round_half_even_scaled_nearest.
    + intros z' Hz'. by apply nearest_hundredth_unique.
    + rewrite (Hscore Hwc). apply (round2_finite score false m e Hfin).
      replace (abs score) with score; [done |].
      apply Prim2SF_inj. by rewrite FloatAxioms.abs_spec, Hfin.
  - intros Hwc Hcase. rewrite (Hscore Hwc).
    apply round2_unchanged; [apply max_zero_signed | exact Hcase].
  - apply score_not_below_zero.
  - apply score_without_findings.
Qed.

(** Five findings of high severity and one of low severity in 224
    words: the unrounded value is 53.125000000000007, the score 53.13.
    Twenty-four critical findings and one of low severity in 928 words:
    21.874999999999986, the score 21.87. *)
Lemma grammar_score_witness :
  let errors :=
    replicate 5 (finding GRAMMAR HIGH 0 4 "agreement") ++ [finding STYLE LOW 9 14 "wordy"] in
  let many :=
    replicate 24 (finding GRAMMAR CRITICAL 0 4 "fragment") ++ [finding STYLE LOW 9 14 "wordy"] in
  _calculate_score errors 0 = 100%float
  ∧ _calculate_score errors 224 = 53.13%float
  ∧ _calculate_score many 928 = 21.87%float
  ∧ ∃ z, nearest_hundredth 7476679068876801 (-47) z
         ∧ z = 5313
         ∧ _calculate_score errors 224 = (float_of_Z z / 100)%float.
Proof.
  intros errors many.
  destruct (grammar_score_formula errors 0) as (Hnone & _).
  destruct (grammar_score_formula errors 224) as (_ & Hscore & _).
  destruct (grammar_score_formula many 928) as (_ & Hmany & _).
  destruct (Hscore ltac:(lia)) as [Hround Hnear].
  destruct (Hmany ltac:(lia)) as [Hround' _].
  split_and!.
  - by apply Hnone.
  - rewrite Hround. reflexivity.
  - rewrite Hround'. reflexivity.
  - destruct (Hnear 7476679068876801%positive (-47)) as (z & Hz & Huniq & Heq);
      [vm_compute; reflexivity | vm_compute; reflexivity |].
    exists z. split_and!; [done | | done].
    symmetry. apply Huniq. vm_compute. split; [discriminate | discriminate].
Defined.

(** In the facet: a run whose merge accepts nothing scores 100. *)
Lemma analyze_without_findings
    (_run_local_analysis : pystr → outcome (list Error))
    (gemini_service : option (pystr → outcome (list Error)))
    (word_count : pystr → Z)
    (_generate_suggestions : list Error → pystr → list string)
    (vocabulary_lexical_diversity : pystr → float)
    (text : pystr) (use_api : bool) (local_errors : list Error) :
  _run_local_analysis (Base.preprocess_text text) = Returns local_errors →
  _merge_errors local_errors
    (api_pass gemini_service use_api (Base.preprocess_text text)) = [] →
  ∃ result,
    analyze _run_local_analysis gemini_service word_count _generate_suggestions
      vocabulary_lexical_diversity text use_api = Returns result
    ∧ gs_score result = 100%float
    ∧ gs_errors result = [].
Proof.
  intros Hlocal Hmerge. unfold analyze. rewrite Hlocal, Hmerge.
  eexists. split; [reflexivity |]. simpl. split; [| done].
  apply score_without_findings.
Qed.

End ScoreFacts.

(** ** The coherence and relevance analyzers *)

Module AnalyzerFacts.
Import Py Schemas Base.

Lemma split_from_no_space cur text w :
  Forall (λ c, isspace c = false) cur →
  w ∈ split_from cur text → Forall (λ c, isspace c = false) w.
Proof.
  revert cur. induction text as [|c rest IH]; intros cur Hcur; simpl.
  - destruct cur; [by inversion 1 |].
    intros Hw. apply list_elem_of_singleton in Hw as ->. exact Hcur.
  - destruct (isspace c) eqn:Hc.
    + destruct cur as [|c0 cur].
      * apply IH. constructor.
      * intros Hw. apply elem_of_cons in Hw as [-> | Hw]; [exact Hcur |].
        revert Hw. apply IH. constructor.
    + apply IH. apply Forall_app. split; [exact Hcur |]. by constructor.
Qed.

Lemma join_elem sep parts c :
  c ∈ join sep parts → c ∈ sep ∨ ∃ p, p ∈ parts ∧ c ∈ p.
Proof.
  induction parts as [|p [|q rest] IH]; simpl.
  - by inversion 1.
  - intros Hc. right. exists p. split; [left | done].
  - intros Hc. apply elem_of_app in Hc as [Hc | Hc].
    { right. exists p. split; [left | done]. }
    apply elem_of_app in Hc as [Hc | Hc]; [by left |].
    destruct (IH Hc) as [? | (p' & Hp' & ?)]; [by left |].
    right. exists p'. split; [by right | done].
Qed.

(** [' '.join(text.split())] has no line break: a word has no
    whitespace, and the separator is a space. *)
Lemma collapse_one_line text : one_line (join [SPACE] (split text)).
Proof.
  intros Hin. apply join_elem in Hin as [Hin | (p & Hp & Hin)].
  - apply list_elem_of_singleton in Hin. discriminate Hin.
  - apply (split_from_no_space [] text p) in Hp; [| constructor].
    rewrite Forall_forall in Hp. specialize (Hp _ Hin). discriminate Hp.
Qed.

Lemma remove_char_one_line c text : one_line text → one_line (remove_char c text).
Proof.
  unfold one_line, remove_char. intros H Hin. apply H.
  by apply list_elem_of_filter in Hin as [_ ?].
Qed.

Lemma replace_char_one_line c d text :
  d ≠ NEWLINE → one_line text → one_line (replace_char c d text).
Proof.
  unfold one_line, replace_char. intros Hd H Hin.
  apply list_elem_of_fmap in Hin as (x & Hx & Hin).
  destruct (decide (x = c)); [by apply Hd | by subst].
Qed.

Lemma lstrip_suffix text : lstrip text `suffix_of` text.
Proof.
  induction text as [|c rest IH]; simpl; [done |].
  destruct (isspace c); [by apply suffix_cons_r | done].
Qed.

Lemma lstrip_elem text c : c ∈ lstrip text → c ∈ text.
Proof.
  destruct (lstrip_suffix text) as [k Hk]. intros Hc. rewrite Hk. set_solver.
Qed.

Lemma rstrip_elem text c : c ∈ rstrip text → c ∈ text.
Proof.
  unfold rstrip. rewrite !list_elem_of_In, <- in_rev, <- !list_elem_of_In.
  intros Hc. apply lstrip_elem in Hc.
  by rewrite list_elem_of_In, <- in_rev, <- list_elem_of_In in Hc.
Qed.

Lemma strip_elem text c : c ∈ strip text → c ∈ text.
Proof. intros Hc. by apply lstrip_elem, rstrip_elem. Qed.

Lemma strip_one_line text : one_line text → one_line (strip text).
Proof. intros H Hin. by apply H, strip_elem. Qed.

(** [text.replace(old, new)] holds characters of [new] and of [text]. *)
Lemma replace_from_elem old new skip text x :
  x ∈ replace_from old new skip text → x ∈ new ∨ x ∈ text.
Proof.
  revert skip. induction text as [|c rest IH]; intros skip; simpl; [by inversion 1 |].
  destruct skip as [|k].
  - case_bool_decide.
    + intros Hx. apply elem_of_app in Hx as [Hx | Hx]; [by left |].
      destruct (IH _ Hx); [by left | right; by right].
    + intros Hx. apply elem_of_cons in Hx as [-> | Hx]; [right; left |].
      destruct (IH _ Hx); [by left | right; by right].
  - intros Hx. destruct (IH _ Hx); [by left | right; by right].
Qed.

Lemma replace_elem old new text x : x ∈ replace old new text → x ∈ new ∨ x ∈ text.
Proof. apply replace_from_elem. Qed.

(** Nothing is replaced in a text that lacks a character of [old]. *)
Lemma replace_absent old new text c :
  c ∈ old → c ∉ text → replace old new text = text.
Proof.
  intros Hold. unfold replace. induction text as [|x rest IH]; intros Hc; simpl; [done |].
  case_bool_decide as Hp.
  - exfalso. apply Hc. destruct Hp as [k ->]. apply elem_of_app. by left.
  - f_equal. apply IH. intros Hin. apply Hc. by right.
Qed.

Lemma replace_char_same c text : replace_char c c text = text.
Proof.
  unfold replace_char. induction text as [|x rest IH]; simpl; [done |].
  rewrite IH. by destruct (decide (x = c)) as [-> |].
Qed.

Lemma remove_char_absent c text : c ∉ text → remove_char c text = text.
Proof.
  unfold remove_char. induction text as [|x rest IH]; intros Hc; [done |].
  cbn. destruct (decide (x ≠ c)) as [Hx | Hx].
  - f_equal. apply IH. intros Hin. apply Hc. by right.
  - exfalso. apply Hx. intros ->. apply Hc. left.
Qed.

Lemma replace_one_line old new text :
  one_line new → one_line text → one_line (replace old new text).
Proof.
  unfold one_line. intros Hn Ht Hin. by apply replace_elem in Hin as [? | ?].
Qed.

Lemma preprocess_text_one_line text : one_line (preprocess_text text).
Proof.
  unfold preprocess_text.
  apply strip_one_line.
  apply replace_one_line; [by intros ?%list_elem_of_singleton |].
  repeat (apply replace_char_one_line; [discriminate |]).
  repeat apply remove_char_one_line.
  apply collapse_one_line.
Qed.


(** *** What the first step does to a text *)

Lemma split_from_words cur text :
  Forall (λ c, isspace c = false) cur → Forall word (split_from cur text).
Proof.
  revert cur. induction text as [|c rest IH]; intros cur Hcur; simpl.
  - destruct cur; [constructor |].
    constructor; [split; [done | exact Hcur] | constructor].
  - destruct (isspace c) eqn:Hc.
    + destruct cur as [|c0 cur].
      * apply IH. constructor.
      * constructor; [split; [done | exact Hcur] |]. apply IH. constructor.
    + apply IH. apply Forall_app. split; [exact Hcur |]. by constructor.
Qed.

Lemma split_words text : Forall word (split text).
Proof. apply split_from_words. constructor. Qed.

(** A whitespace character ahead of a text joins its first gap. *)
Lemma weave_cons_gap c g gaps words :
  weave ((c :: g) :: gaps) words = c :: weave (g :: gaps) words.
Proof. by destruct words. Qed.

(** The text read so far and the text to read are the words found,
    with whitespace between them; a word being read starts the text. *)
Lemma split_from_weave cur text :
  ∃ gaps,
    separates gaps (length (split_from cur text))
    ∧ (cur ≠ [] → head gaps = Some [])
    ∧ cur ++ text = weave gaps (split_from cur text).
Proof.
  revert cur. induction text as [|c rest IH]; intros cur; simpl.
  - destruct cur as [|c0 cur].
    + exists [[]]. split; [| by split].
      split; [done |]. split; [unfold blank; repeat constructor |].
      intros i g Hi. simpl in Hi. lia.
    + exists [[]; []]. split; [| split; [done | simpl; by rewrite !app_nil_r]].
      split; [done |]. split; [unfold blank; repeat constructor |].
      intros i g Hi. simpl in Hi. lia.
  - destruct (isspace c) eqn:Hc.
    + destruct (IH []) as ([|g0 gaps] & (Hlen & Hblank & Hinner) & _ & Heq);
        [discriminate Hlen |].
      apply Forall_cons in Hblank as [Hg0 Hblank].
      assert (blank (c :: g0)) as Hcg by (by constructor).
      destruct cur as [|c0 cur].
      * exists ((c :: g0) :: gaps). split; [| split; [done |]].
        -- split; [done |]. split; [by constructor |].
           intros [|i] g Hi Hg; [lia |]. by apply (Hinner (S i) g).
        -- rewrite weave_cons_gap. exact (f_equal (cons c) Heq).
      * exists ([] :: (c :: g0) :: gaps). split; [| split; [done |]].
        -- split; [simpl in *; lia |].
           split; [constructor; [constructor | by constructor] |].
           intros [|[|i]] g Hi Hg; [lia | by simplify_eq/= |].
           apply (Hinner (S i) g); [simpl in Hi; lia | done].
        -- transitivity ((c0 :: cur) ++ weave ((c :: g0) :: gaps) (split_from [] rest));
             [| done].
           rewrite weave_cons_gap.
           exact (f_equal (λ t, (c0 :: cur) ++ c :: t) Heq).
    + destruct (IH (cur ++ [c])) as (gaps & Hsep & Hhead & Heq).
      exists gaps. split; [done |]. split; [| by rewrite <- Heq, <- app_assoc].
      intros _. apply Hhead. by destruct cur.
Qed.

(** [text.split()]: the text is its words, none empty and none with
    whitespace, with whitespace before, between and after them, at
    least one character of it between two words. *)
Lemma split_weave text :
  Forall word (split text)
  ∧ ∃ gaps, separates gaps (length (split text)) ∧ text = weave gaps (split text).
Proof.
  split; [apply split_words |].
  destruct (split_from_weave [] text) as (gaps & Hsep & _ & Heq). by exists gaps.
Qed.

(** [' '.join(words)]: the same words with nothing before and after
    them and one space between two of them. *)
Lemma join_weave words :
  join [SPACE] words = weave (single_spaces (length words)) words.
Proof.
  destruct words as [|w words]; [done |]. simpl.
  revert w. induction words as [|w' words IH]; intros w; [by rewrite app_nil_r |].
  cbn [length replicate app weave join]. f_equal. f_equal. apply IH.
Qed.

(** Words joined by spaces have no whitespace at either end. *)
Lemma lstrip_word_first w rest : word w → lstrip (w ++ rest) = w ++ rest.
Proof.
  intros [Hne Hw]. destruct w as [|c w]; [done |].
  apply Forall_cons in Hw as [Hc _]. simpl. by rewrite Hc.
Qed.

Lemma join_words_first w words :
  word w → ∃ rest, join [SPACE] (w :: words) = w ++ rest.
Proof.
  destruct words; [exists []; by rewrite app_nil_r | by eexists].
Qed.

Lemma join_words_last words :
  Forall word words → words ≠ [] →
  ∃ pre c, join [SPACE] words = pre ++ [c] ∧ isspace c = false.
Proof.
  induction 1 as [|w words Hw Hwords IH]; [done |]. intros _.
  destruct words as [|w' words].
  - destruct Hw as [Hne Hw]. destruct (exists_last Hne) as (pre & c & ->).
    exists pre, c. split; [done |].
    apply Forall_app in Hw as [_ Hc]. by apply Forall_inv in Hc.
  - destruct (IH ltac:(done)) as (pre & c & Heq & Hc).
    exists (w ++ [SPACE] ++ pre), c. split; [| done].
    change (join [SPACE] (w :: w' :: words))
      with (w ++ [SPACE] ++ join [SPACE] (w' :: words)).
    rewrite Heq. by rewrite <- !app_assoc.
Qed.

Lemma strip_join_words words :
  Forall word words → strip (join [SPACE] words) = join [SPACE] words.
Proof.
  intros Hwords. destruct words as [|w words]; [done |].
  destruct (join_words_last (w :: words) Hwords ltac:(done)) as (pre & c & Heq & Hc).
  destruct (join_words_first w words (Forall_inv Hwords)) as [rest Hrest].
  unfold strip. rewrite Hrest, lstrip_word_first by apply (Forall_inv Hwords).
  rewrite <- Hrest, Heq. unfold rstrip. rewrite rev_app_distr. simpl.
  rewrite Hc. by rewrite <- (rev_involutive pre) at 2.
Qed.

(** A text with no zero-width character and no quotation mark comes
    out of [preprocess_text] as it comes out of the first step. *)
Lemma preprocess_text_plain text :
  (∀ c, c ∈ text → c ∉ [0x200b; 0x200c; 0x200d; QUOTE]%N) →
  preprocess_text text = join [SPACE] (split text).
Proof.
  intros Hplain.
  assert (∀ c, c ∈ [0x200b; 0x200c; 0x200d; QUOTE]%N → c ∉ join [SPACE] (split text))
    as Habsent.
  { intros c Hc Hin. apply join_elem in Hin as [Hin | (w & Hw & Hin)].
    - apply list_elem_of_singleton in Hin as ->. set_solver.
    - apply (Hplain c); [| done].
      destruct (split_weave text) as (_ & gaps & (Hlen & _) & Heq).
      rewrite Heq. clear Heq. revert gaps Hlen Hw.
      induction (split text) as [|w0 ws IH]; intros gaps Hlen Hw; [by inversion Hw |].
      destruct gaps as [|g gaps]; [discriminate Hlen |]. simpl.
      apply elem_of_app. right. apply elem_of_app.
      apply elem_of_cons in Hw as [-> | Hw]; [by left | right].
      apply IH; [simpl in Hlen; lia | done]. }
  unfold preprocess_text.
  rewrite (remove_char_absent 0x200b%N) by (apply Habsent; set_solver).
  rewrite (remove_char_absent 0x200c%N) by (apply Habsent; set_solver).
  rewrite (remove_char_absent 0x200d%N) by (apply Habsent; set_solver).
  rewrite !replace_char_same.
  rewrite (replace_absent _ _ _ QUOTE); [| set_solver | apply Habsent; set_solver].
  apply strip_join_words, split_words.
Qed.

(** The only whitespace left by [preprocess_text] is the plain space. *)
Lemma collapse_spaces_only text c :
  c ∈ join [SPACE] (split text) → isspace c = true → c = SPACE.
Proof.
  intros Hin Hc. apply join_elem in Hin as [Hin | (p & Hp & Hin)].
  - by apply list_elem_of_singleton in Hin.
  - apply (split_from_no_space [] text p) in Hp; [| constructor].
    rewrite Forall_forall in Hp. specialize (Hp _ Hin). congruence.
Qed.

Lemma replace_char_elem c d text x :
  x ∈ replace_char c d text → x = d ∨ x ∈ text.
Proof.
  unfold replace_char. intros Hin.
  apply list_elem_of_fmap in Hin as (y & -> & Hin).
  destruct (decide (y = c)); [by left | by right].
Qed.

(** Every character of the result is a space, an apostrophe or a
    character of a word of the text. *)
Lemma preprocess_text_elem text c :
  c ∈ preprocess_text text →
  c = SPACE ∨ c = APOSTROPHE ∨ (∃ w, w ∈ split text ∧ c ∈ w).
Proof.
  unfold preprocess_text. intros Hin. apply strip_elem in Hin.
  apply replace_elem in Hin as [Hin | Hin].
  { right. left. by apply list_elem_of_singleton in Hin. }
  rewrite !replace_char_same in Hin. unfold remove_char in Hin.
  repeat (apply list_elem_of_filter in Hin as [_ Hin]).
  apply join_elem in Hin as [Hin | Hin]; [| by right; right].
  left. by apply list_elem_of_singleton in Hin.
Qed.

Lemma preprocess_text_spaces_only text c :
  c ∈ preprocess_text text → isspace c = true → c = SPACE.
Proof.
  intros Hin Hc.
  destruct (preprocess_text_elem _ _ Hin) as [? | [-> | (w & Hw & Hcw)]];
    [done | discriminate Hc |].
  apply (split_from_no_space [] text w) in Hw; [| constructor].
  rewrite Forall_forall in Hw. specialize (Hw _ Hcw). congruence.
Qed.

(** Without a line break the pattern never matches. *)
Lemma re_split_blank_from_one_line cur text :
  one_line text → re_split_blank_from cur None text = [cur ++ text].
Proof.
  revert cur. induction text as [|c rest IH]; intros cur Hl; simpl.
  - by rewrite app_nil_r.
  - destruct (decide (c = NEWLINE)) as [-> | Hc].
    + exfalso. apply Hl. left.
    + rewrite IH.
      * by rewrite <- app_assoc.
      * intros Hin. apply Hl. by right.
Qed.

Lemma re_split_blank_one_line text : one_line text → re_split_blank text = [text].
Proof. apply re_split_blank_from_one_line. Qed.

Lemma split_paragraphs_one_line text :
  one_line text → (length (_split_paragraphs text) ≤ 1)%nat.
Proof.
  intros Hl. unfold _split_paragraphs.
  rewrite re_split_blank_one_line by done.
  rewrite length_fmap. etransitivity; [apply length_filter |]. done.
Qed.

Lemma split_paragraphs_preprocessed text :
  (length (_split_paragraphs (preprocess_text text)) ≤ 1)%nat.
Proof. apply split_paragraphs_one_line, preprocess_text_one_line. Qed.

(** A text with a blank line has two paragraphs before preprocessing
    and one after. *)
Example two_paragraphs_become_one :
  let text := of_string "First paragraph." ++ [NEWLINE; NEWLINE]
              ++ of_string "Second paragraph." in
  length (_split_paragraphs text) = 2%nat
  ∧ length (_split_paragraphs (preprocess_text text)) = 1%nat.
Proof. split; reflexivity. Qed.

(** The zero-width characters are removed after the whitespace was
    collapsed: around one of them two spaces come to stand side by
    side. *)
Example zero_width_leaves_two_spaces :
  preprocess_text (of_string "a " ++ [0x200b%N] ++ of_string " b") = of_string "a  b".
Proof. reflexivity. Qed.

(** The second line under "Normalize quotes" replaces the text of a
    call, not a curly quote, which is left as it is. *)
Example quotes_are_not_normalized :
  preprocess_text [0x2018; 0x61; 0x2019]%N = [0x2018; 0x61; 0x2019]%N
  ∧ preprocess_text (of_string "x" ++ quoted_call ++ of_string "y") = of_string "x'y".
Proof. split; reflexivity. Qed.

Section Paragraphs.

Variable similarity : pystr → pystr → float.
Variable _split_sentences : pystr → list pystr.
Variable _identify_transition_type : pystr → option string.
Variable _calculate_readability_metrics : pystr → gmap string float.
Variable _suggest_connection_improvement : pystr → pystr → string.
Variable coherence_service : option (pystr → option (list string)).
Variable _extract_key_terms : pystr → list string.
Variable _calculate_topic_coverage : pystr → list pystr → Relevance.coverage.
Variable _identify_missing_aspects : pystr → list pystr → list string → list string.
Variable relevance_service : option (pystr → list pystr → option Relevance.ApiAnswer).
Variable _generate_suggestions :
  Relevance.coverage → list string → list Drift → option Relevance.ApiAnswer
  → list string.

Lemma no_transitions paragraphs :
  (length paragraphs ≤ 1)%nat →
  Coherence._analyze_paragraph_transitions similarity _split_sentences
    _identify_transition_type paragraphs = [].
Proof.
  destruct paragraphs as [|p [|q rest]]; simpl; [done | done | lia].
Qed.

Lemma no_drift text topics :
  (length (_split_paragraphs text) ≤ 1)%nat →
  Relevance._analyze_topic_drift similarity text topics = [].
Proof.
  intros Hl. unfold Relevance._analyze_topic_drift.
  destruct (Nat.ltb_spec (length (_split_paragraphs text)) 2); [done | lia].
Qed.

(** C10.  The first step of [preprocess_text] takes the text apart
    into its words: the text is its words, none empty and none holding
    whitespace, with runs of whitespace before, between and after them;
    and it puts the same words together with nothing before and after
    them and one space for each run between two of them.  For a text
    with no zero-width character and no quotation mark that is the text
    returned.  In general the later steps remove the zero-width
    characters (after which two spaces may stand side by side) and put
    in apostrophes: every character returned is a space, an apostrophe
    or a character of a word, the only whitespace returned is the plain
    space, and there is no line break.  So the text returned is split
    into at most one paragraph and, for every input text and whatever
    the embedding model and the other collaborators answer, the
    coherence analyzer finds no paragraph transition and its transition
    bonus is 0, and the relevance analyzer reports no topic drift and
    its drift penalty is 0. *)
Theorem paragraph_terms_vanish (text : pystr) (topic : option pystr)
    (topics : option (list pystr)) (use_api : bool) :
  let coherence :=
    Coherence.analyze similarity _split_sentences _identify_transition_type
      _calculate_readability_metrics _suggest_connection_improvement
      coherence_service text use_api in
  let relevance :=
    snd (Relevance.analyze similarity _extract_key_terms _calculate_topic_coverage
           _identify_missing_aspects relevance_service _generate_suggestions
           text topic topics use_api) in
  let words := split text in
  Forall (λ w, w ≠ [] ∧ Forall (λ c, isspace c = false) w) words
  ∧ (∃ gaps, separates gaps (length words) ∧ text = weave gaps words)
  ∧ join [SPACE] words = weave (single_spaces (length words)) words
  ∧ (Forall (λ c, c ∉ [0x200b; 0x200c; 0x200d; QUOTE]%N) text →
     preprocess_text text = join [SPACE] words)
  ∧ (∀ c, c ∈ preprocess_text text →
          c = SPACE ∨ c = APOSTROPHE ∨ ∃ w, w ∈ words ∧ c ∈ w)
  ∧ (∀ c, c ∈ preprocess_text text → isspace c = true → c = SPACE)
  ∧ one_line (preprocess_text text)
  ∧ (length (_split_paragraphs (preprocess_text text)) ≤ 1)%nat
  ∧ cs_paragraph_transitions coherence = []
  ∧ Coherence.transition_bonus (cs_paragraph_transitions coherence) = 0
  ∧ rs_topic_drift relevance = []
  ∧ Relevance.drift_penalty (rs_topic_drift relevance) = 0.
Proof.
  intros coherence relevance words.
  assert (cs_paragraph_transitions coherence = []) as Hc.
  { apply no_transitions, split_paragraphs_preprocessed. }
  assert (rs_topic_drift relevance = []) as Hr.
  { subst relevance. unfold Relevance.analyze.
    destruct (Relevance.all_topics topic topics); [done |].
    unfold Relevance.api_pass.
    destruct relevance_service; [destruct (_ && _) |]; simpl;
      apply no_drift, split_paragraphs_preprocessed. }
  split_and!.
  - apply split_words.
  - apply split_weave.
  - apply join_weave.
  - intros Hplain. apply preprocess_text_plain. by apply Forall_forall.
  - apply preprocess_text_elem.
  - apply preprocess_text_spaces_only.
  - apply preprocess_text_one_line.
  - apply split_paragraphs_preprocessed.
  - exact Hc.
  - by rewrite Hc.
  - exact Hr.
  - by rewrite Hr.
Qed.

(** C7.  With no topic and no topic list (or with an empty topic and an
    empty list) the relevance analyzer returns the score 50 and the
    suggestion to provide a topic, with empty coverage, key terms,
    missing aspects and drift, and awaits none of its stages, whatever
    the text. *)
Theorem no_topic_is_neutral (text : pystr) (use_api : bool) :
  let run := Relevance.analyze similarity _extract_key_terms _calculate_topic_coverage
               _identify_missing_aspects relevance_service _generate_suggestions text in
  run None None use_api = ([], Relevance.neutral_score)
  ∧ run (Some []) (Some []) use_api = ([], Relevance.neutral_score)
  ∧ rs_score Relevance.neutral_score = 50%float
  ∧ "Please provide a topic to analyze relevance against"
      ∈ rs_suggestions Relevance.neutral_score
  ∧ rs_topic_coverage Relevance.neutral_score = []
  ∧ rs_key_terms_found Relevance.neutral_score = []
  ∧ rs_missing_aspects Relevance.neutral_score = []
  ∧ rs_topic_drift Relevance.neutral_score = [].
Proof.
  intros run. split_and!; try reflexivity. simpl. left.
Qed.

End Paragraphs.

(** A text of two paragraphs, the second with two spaces in it, comes
    out as one line with single spaces. *)
Lemma paragraph_terms_witness :
  let text := of_string "First paragraph." ++ [NEWLINE; NEWLINE]
              ++ of_string "Second  paragraph." in
  preprocess_text text = of_string "First paragraph. Second paragraph.".
Proof.
  intros text.
  pose proof (paragraph_terms_vanish (λ _ _, 0%float) (λ _, []) (λ _, None) (λ _, ∅)
                (λ _ _, "") None (λ _, []) (λ _ _, []) (λ _ _ _, []) None
                (λ _ _ _ _, []) text None None false) as H.
  destruct H as (_ & _ & _ & Hplain & _).
  rewrite Hplain; [reflexivity |]. compute_done.
Defined.

End AnalyzerFacts.


(** ** The cache *)

Module CacheFacts.
Import Py Schemas.

Section Service.

Context {Result : Type}.
Implicit Types (self : Cache.CacheService Result) (c : gmap string (Cache.row Result)).

Lemma unavailable_empty self :
  Cache.cache self = Some ∅ → Cache.unavailable self = true.
Proof.
  intros H. unfold Cache.unavailable. rewrite H.
  unfold Cache.dc_bool, Cache.dc_len. rewrite map_size_empty. simpl.
  apply orb_true_r.
Qed.

Lemma available_nonempty self c :
  Cache.enabled self = true → Cache.cache self = Some c → c ≠ ∅ →
  Cache.unavailable self = false.
Proof.
  intros He Hc Hne. unfold Cache.unavailable. rewrite He, Hc. simpl.
  unfold Cache.dc_bool, Cache.dc_len.
  destruct (size c) eqn:Hs; [| done].
  by apply map_size_empty_iff in Hs.
Qed.

(** A hit comes from a row that exists, has not expired and carries the
    current version. *)
Lemma get_hit_inv self now key r :
  fst (Cache.get self now key) = Some r →
  ∃ c row, Cache.cache self = Some c ∧ c !! key = Some row
           ∧ Cache.unexpired now row = true
           ∧ Cache.cd_version (Cache.value row) = "1.0.0"
           ∧ Cache.cd_result (Cache.value row) = r.
Proof.
  unfold Cache.get. destruct (Cache.unavailable self); [done |].
  destruct (Cache.cache self) as [c|]; [| done].
  unfold Cache.dc_get. destruct (c !! key) as [row|] eqn:Hrow; [| done].
  destruct (Cache.unexpired now row) eqn:Hexp; [| done].
  unfold Cache._is_cache_valid.
  destruct (decide (Cache.cd_version (Cache.value row) ≠ "1.0.0")) as [Hv | Hv];
    simpl; [done |].
  intros [= <-]. exists c, row. split_and!; try done.
  by destruct (decide (Cache.cd_version (Cache.value row) = "1.0.0")).
Qed.

(** A row of another version is a miss and is deleted. *)
Lemma get_version_mismatch self c now key row :
  Cache.enabled self = true → Cache.cache self = Some c →
  c !! key = Some row → Cache.unexpired now row = true →
  Cache.cd_version (Cache.value row) ≠ "1.0.0" →
  Cache.get self now key = (None, Cache.with_cache self (delete key c)).
Proof.
  intros He Hc Hrow Hexp Hv.
  assert (c ≠ ∅) as Hne by (intros ->; by rewrite lookup_empty in Hrow).
  unfold Cache.get, Cache.delete.
  rewrite (available_nonempty self c) by done.
  rewrite Hc. unfold Cache.dc_get. rewrite Hrow, Hexp.
  unfold Cache._is_cache_valid. rewrite decide_True by done. done.
Qed.

(** An expired row is a miss; the service leaves it to the store. *)
Lemma get_expired self c now key row :
  Cache.cache self = Some c → c !! key = Some row →
  Cache.unexpired now row = false →
  Cache.get self now key = (None, self).
Proof.
  intros Hc Hrow Hexp. unfold Cache.get.
  destruct (Cache.unavailable self); [done |].
  rewrite Hc. unfold Cache.dc_get. by rewrite Hrow, Hexp.
Qed.

(** On a store that already holds a row, a write is read back until its
    time to live has passed, and is a miss from then on. *)
Lemma set_then_get self c now later key (v : Result) :
  Cache.enabled self = true → Cache.cache self = Some c → c ≠ ∅ →
  let self' := snd (Cache.set self now key v) in
  ((later < now + Cache.ttl self)%Qc → fst (Cache.get self' later key) = Some v)
  ∧ (¬ (later < now + Cache.ttl self)%Qc → fst (Cache.get self' later key) = None).
Proof.
  intros He Hc Hne. unfold Cache.set.
  rewrite (available_nonempty self c) by done. rewrite Hc. simpl.
  set (c' := Cache.dc_set c now key _ _).
  assert (Cache.unavailable (Cache.with_cache self c') = false) as Hav.
  { apply (available_nonempty _ c'); [done | done |].
    unfold c', Cache.dc_set. apply insert_non_empty. }
  unfold Cache.get. rewrite Hav. simpl.
  unfold Cache.dc_get, c', Cache.dc_set. rewrite lookup_insert_eq.
  unfold Cache.unexpired. simpl. split; intros Ht.
  - by rewrite bool_decide_true.
  - by rewrite bool_decide_false.
Qed.

(** C8 (the code departs from the claim).  On an enabled service whose
    store holds no row, [set] writes nothing and returns [False], and the
    [get] that follows is a miss: the guard [not self.cache] takes the
    empty store for a missing one. *)
Theorem set_on_empty_store_is_lost self now later key (v : Result) :
  Cache.enabled self = true → Cache.cache self = Some ∅ →
  Cache.set self now key v = (false, self)
  ∧ fst (Cache.get (snd (Cache.set self now key v)) later key) = None.
Proof.
  intros _ Hc. unfold Cache.set, Cache.get.
  rewrite (unavailable_empty self Hc). simpl.
  by rewrite (unavailable_empty self Hc).
Qed.

End Service.

Lemma set_on_empty_store_witness :
  let fresh := Main.cache_service Samples.fresh_app in
  let result := Main.mkAnalysisResult 80
                  (mkGrammarScore 80 [] 0 []
                     (mkGrammarDetails (λ _, 0%nat) 0.5))
                  Samples.calm_coherence Relevance.neutral_score Samples.no_stats
                  0 (Q2Qc 1) "" [] [] in
  Cache.set fresh (Q2Qc 1) "key" result = (false, fresh)
  ∧ fst (Cache.get (snd (Cache.set fresh (Q2Qc 1) "key" result)) (Q2Qc 1) "key") = None.
Proof.
  intros fresh result.
  apply (set_on_empty_store_is_lost fresh (Q2Qc 1) (Q2Qc 1) "key" result); reflexivity.
Defined.

End CacheFacts.

(** ** The orchestrator *)

Module MainFacts.
Import Py Schemas Samples.

(** *** Dictionaries *)

Lemma dict_get_set {V} (k k' : string) (v : V) (d : dict V) :
  dict_get k (dict_set k' v d) = if decide (k = k') then Some v else dict_get k d.
Proof.
  induction d as [|[k0 v0] d IH]; simpl.
  - by destruct (decide (k = k')).
  - destruct (decide (k' = k0)) as [-> | Hk0]; simpl.
    + by destruct (decide (k = k0)).
    + rewrite IH. destruct (decide (k = k0)) as [-> | ?]; [| done].
      by rewrite decide_False.
Qed.

Lemma dict_get_None {V} (k : string) (d : dict V) :
  k ∉ map fst d → dict_get k d = None.
Proof.
  induction d as [|[k0 v0] d IH]; simpl; [done |]. intros Hk.
  rewrite decide_False by (intros ->; apply Hk; left).
  apply IH. intros Hin. apply Hk. by right.
Qed.

(** [d.update(other)]: the entries of [other], and those of [d] under
    the keys that [other] lacks. *)
Lemma dict_get_update {V} (k : string) (d other : dict V) :
  NoDup (map fst other) →
  dict_get k (dict_update d other)
  = match dict_get k other with Some v => Some v | None => dict_get k d end.
Proof.
  unfold dict_update. revert d.
  induction other as [|[k' v'] other IH]; intros d Hnd; [done |].
  apply NoDup_cons in Hnd as [Hk' Hnd]. cbn [fold_left fst snd dict_get].
  rewrite IH by done. rewrite dict_get_set.
  destruct (decide (k = k')) as [-> | ?]; [| done].
  by rewrite dict_get_None.
Qed.

Lemma dict_keys_set {V} (k : string) (v : V) (d : dict V) :
  map fst (dict_set k v d)
  = if decide (k ∈ map fst d) then map fst d else map fst d ++ [k].
Proof.
  induction d as [|[k0 v0] d IH]; simpl; [done |].
  destruct (decide (k = k0)) as [-> | Hk0]; simpl.
  - rewrite decide_True by left. done.
  - rewrite IH. destruct (decide (k ∈ map fst d)) as [Hin | Hin].
    + rewrite decide_True by (by right). done.
    + rewrite decide_False; [done |]. by intros [? | ?]%elem_of_cons.
Qed.

Lemma filter_agree {A} (P Q : A → Prop) `{∀ x, Decision (P x)} `{∀ x, Decision (Q x)}
    (l : list A) :
  (∀ x, x ∈ l → P x ↔ Q x) → filter P l = filter Q l.
Proof.
  induction l as [|x l IH]; intros Hpq; [done |].
  assert (filter P l = filter Q l) as Hl.
  { apply IH. intros y Hy. apply Hpq. by right. }
  destruct (decide (P x)) as [Hp | Hp].
  - rewrite !filter_cons_True; [by rewrite Hl | | done]. apply Hpq; [left | done].
  - rewrite !filter_cons_False; [done | | done]. intros Hq. apply Hp, Hpq; [left | done].
Qed.

(** The keys after [d.update(other)]: those of [d], then the new ones
    in the order of [other]. *)
Lemma dict_keys_update {V} (d other : dict V) :
  NoDup (map fst other) →
  map fst (dict_update d other)
  = map fst d ++ filter (λ k, k ∉ map fst d) (map fst other).
Proof.
  unfold dict_update. revert d. induction other as [|[k' v'] other IH]; intros d Hnd.
  - simpl. by rewrite app_nil_r.
  - apply NoDup_cons in Hnd as [Hk' Hnd]. cbn [fold_left fst snd map].
    rewrite IH by done. rewrite dict_keys_set.
    destruct (decide (k' ∈ map fst d)) as [Hin | Hin].
    + rewrite filter_cons_False by (intros H; by apply H). done.
    + rewrite filter_cons_True by done. rewrite <- app_assoc. simpl. do 2 f_equal.
      apply filter_agree. intros k Hk. split.
      * intros Hnin Hkd. apply Hnin, elem_of_app. by left.
      * intros Hnin [Hkd | Hkk]%elem_of_app; [done |].
        apply list_elem_of_singleton in Hkk as ->. done.
Qed.

Lemma dict_get_scaled (k : string) (f : float → float) (d : dict float) :
  dict_get k (map (λ kv, (fst kv, f (snd kv))) d) = f <$> dict_get k d.
Proof.
  induction d as [|[k0 v0] d IH]; simpl; [done |].
  by destruct (decide (k = k0)).
Qed.

(** *** Weights *)

(** C2, as stated, does not hold: the facets left out of
    [custom_weights] keep their default weights, so grammar does not
    end up with the weight 1. *)
Lemma grammar_only_keeps_other_defaults : ¬ Main.grammar_only_scenario.
Proof.
  intros (w & Hw & Hg & _).
  vm_compute in Hw. injection Hw as <-.
  apply (f_equal Prim2SF) in Hg. vm_compute in Hg. discriminate Hg.
Qed.

(** C2, amended.  With [custom_weights = {"grammar": 1}] and the other
    facets left out, these keep their defaults 0.3; the total is 1.6 and
    the weights are 0.625 for grammar and, in binary64 arithmetic,
    0.18749999999999997 for each of the other two, which add up to 1;
    the composite score is the sum of the facet scores with these
    weights.  In general a non-empty [custom_weights] is laid over the
    defaults: its entries replace or follow the three default entries,
    facets left out keeping their default.  The values are added up
    from 0 in that order; when the total is zero the division raises,
    and otherwise every weight is divided by the total.  The weights so
    obtained need not add up to 1: with 1e308 for grammar and for
    coherence the total is infinite and all three weights are 0; and
    with 1e17 for grammar and -1e17 for relevance the total is zero. *)
Theorem custom_weights_overlay (settings : Config.Settings)
    (custom : dict float) (g c r : float) :
  (∃ w, Main.effective_weights Config.settings (Some [("grammar", 1%float)]) = Returns w
        ∧ w = [("grammar", 0.625%float); ("coherence", 0.18749999999999997%float);
               ("relevance", 0.18749999999999997%float)]
        ∧ (0.625 + 0.18749999999999997 + 0.18749999999999997 = 1)%float
        ∧ Main.weighted_score w g c r
          = (g * 0.625 + c * 0.18749999999999997 + r * 0.18749999999999997)%float)
  ∧ (custom ≠ [] → NoDup (map fst custom) →
     let merged := dict_update (Main.default_weights settings) custom in
     let total := fold_left PrimFloat.add (map snd merged) 0%float in
     map fst merged
     = ["grammar"; "coherence"; "relevance"]
       ++ filter (λ k, k ∉ ["grammar"; "coherence"; "relevance"]) (map fst custom)
     ∧ dict_get "grammar" merged
       = Some (default (Config.grammar_weight settings) (dict_get "grammar" custom))
     ∧ dict_get "coherence" merged
       = Some (default (Config.coherence_weight settings) (dict_get "coherence" custom))
     ∧ dict_get "relevance" merged
       = Some (default (Config.relevance_weight settings) (dict_get "relevance" custom))
     ∧ (∀ k, k ∉ ["grammar"; "coherence"; "relevance"] →
             dict_get k merged = dict_get k custom)
     ∧ ((total =? 0)%float = true →
        Main.effective_weights settings (Some custom) = Raises "float division by zero")
     ∧ ((total =? 0)%float = false →
        ∃ w, Main.effective_weights settings (Some custom) = Returns w
             ∧ map fst w = map fst merged
             ∧ ∀ k, dict_get k w = (λ v, v / total)%float <$> dict_get k merged))
  ∧ Main.effective_weights Config.settings
      (Some [("grammar", 1e308%float); ("coherence", 1e308%float)])
    = Returns [("grammar", 0%float); ("coherence", 0%float); ("relevance", 0%float)]
  ∧ Main.effective_weights Config.settings
      (Some [("grammar", 1e17%float); ("relevance", (-1e17)%float)])
    = Raises "float division by zero".
Proof.
  split_and!.
  - eexists. split_and!; reflexivity.
  - intros Hne Hnd merged total.
    assert (∀ k, dict_get k merged
                 = match dict_get k custom with
                   | Some v => Some v
                   | None => dict_get k (Main.default_weights settings)
                   end) as Hget.
    { intros k. by apply dict_get_update. }
    split_and!.
    + subst merged. by rewrite dict_keys_update.
    + rewrite Hget. by destruct (dict_get "grammar" custom).
    + rewrite Hget. by destruct (dict_get "coherence" custom).
    + rewrite Hget. by destruct (dict_get "relevance" custom).
    + intros k Hk. rewrite Hget. destruct (dict_get k custom); [done |].
      apply dict_get_None. exact Hk.
    + intros Htotal. unfold Main.effective_weights.
      destruct custom as [|kv custom]; [done |]. fold merged.
      unfold Main.normalized, Main.sum_values, Py.sum, dict_values. fold total.
      rewrite Htotal.
      destruct merged eqn:E; [| done].
      apply (f_equal (map fst)) in E. subst merged.
      rewrite dict_keys_update in E by done. discriminate E.
    + intros Htotal. unfold Main.effective_weights.
      destruct custom as [|kv custom]; [done |]. fold merged.
      unfold Main.normalized, Main.sum_values, Py.sum, dict_values. fold total.
      rewrite Htotal.
      assert (merged ≠ []) as Hm.
      { intros E. apply (f_equal (map fst)) in E. subst merged.
        rewrite dict_keys_update in E by done. discriminate E. }
      destruct merged as [|kv0 merged0] eqn:E; [done |].
      eexists. split; [reflexivity |]. split.
      * rewrite map_map. reflexivity.
      * intros k. apply (dict_get_scaled k (λ v, v / total)%float).
  - reflexivity.
  - reflexivity.
Qed.

Lemma custom_weights_overlay_witness :
  ∃ w, Main.effective_weights Config.defaults
         (Some [("coherence", 0.5%float); ("style", 0.25%float)]) = Returns w
       ∧ map fst w = ["grammar"; "coherence"; "relevance"; "style"]
       ∧ dict_get "coherence" w = Some (0.5 / (0.4 + 0.5 + 0.3 + 0.25))%float
       ∧ dict_get "relevance" w = Some (0.3 / (0.4 + 0.5 + 0.3 + 0.25))%float.
Proof.
  pose (custom := [("coherence", 0.5%float); ("style", 0.25%float)]).
  assert (custom ≠ []) as Hne by done.
  assert (NoDup (map fst custom)) as Hnd by compute_done.
  destruct (custom_weights_overlay Config.defaults custom 0 0 0) as (_ & Hgen & _).
  destruct (Hgen Hne Hnd) as (Hkeys & _ & _ & _ & _ & _ & Hreturns).
  destruct (Hreturns eq_refl) as (w & Hw & Hwk & Hwget).
  exists w. split_and!.
  - exact Hw.
  - rewrite Hwk. exact Hkeys.
  - rewrite Hwget. reflexivity.
  - rewrite Hwget. reflexivity.
Defined.

(** *** Validation of the request *)

(** The request is refused exactly when the text as received has fewer
    than 10 or more than 50000 characters, or is blank. *)
Lemma TextInput_new_rejects body topic topics weights :
  (∃ e, TextInput_new body topic topics weights = inl e)
  ↔ (Z.of_nat (length body) < 10 ∨ 50000 < Z.of_nat (length body) ∨ strip body = []).
Proof.
  unfold TextInput_new, validate_text.
  destruct (Z.ltb_spec (Z.of_nat (length body)) 10).
  { split; [intros _; by left | intros _; eauto]. }
  destruct (Z.ltb_spec 50000 (Z.of_nat (length body))).
  { split; [intros _; right; by left | intros _; eauto]. }
  destruct (strip body) eqn:Hs; simpl.
  - split; [intros _; right; by right | intros _; eauto].
  - split; [intros [e [=]] | intros [? | [? | ?]]; try lia; done].
Qed.

(** C5 (the code departs from the claim).  A text of 12 characters is
    shorter than the configured [min_text_length] of 50, which
    [validate_text_length] would refuse, and yet the request is
    accepted: the input model has its own lower bound, 10, and nothing
    calls [validate_text_length]. *)
Theorem short_text_is_not_rejected :
  let body := of_string "Hello world!" in
  Z.of_nat (length body) < Config.min_text_length Config.settings
  ∧ Base.validate_text_length Config.settings body = false
  ∧ TextInput_new body None None None = inr (mkTextInput body None None None).
Proof. split_and!; reflexivity. Qed.

(** *** Failure of a facet *)

Lemma gather_raises {A B C} (a : outcome A) (b : outcome B) (c : outcome C) :
  raises a ∨ raises b ∨ raises c →
  ∃ msg, Main.gather a b c = Raises msg
         ∧ (a = Raises msg ∨ b = Raises msg ∨ c = Raises msg).
Proof.
  unfold raises, Main.gather.
  destruct a as [x | ma]; [| intros _; exists ma; split; [done | by left]].
  destruct b as [y | mb]; [| intros _; exists mb; split; [done | right; by left]].
  destruct c as [z | mc]; [| intros _; exists mc; split; [done | right; by right]].
  intros [[m [=]] | [[m [=]] | [m [=]]]].
Qed.

(** C1, as stated, does not hold: when the grammar facet raises, the
    handler answers with an HTTP error and no result. *)
Lemma facet_failure_is_not_absorbed :
  ¬ Main.facet_failure_degrades
  ∧ analyze_with_failing_grammar
    = Main.HTTPException 500 "LanguageTool server not reachable".
Proof.
  split; [| reflexivity].
  intros H.
  destruct (H failing_grammar (λ _, Returns calm_coherence)
              (λ _ _ _, Returns Relevance.neutral_score) id (λ _, no_stats)
              (λ _, "key") (λ _, "") Config.settings fresh_app (Q2Qc 0) (Q2Qc 1) request)
    as (result & Hres & _).
  - reflexivity.
  - left. by eexists.
  - vm_compute in Hres. discriminate Hres.
Qed.

Section Handler.

Variable grammar_analyze : pystr → outcome GrammarScore.
Variable coherence_analyze : pystr → outcome CoherenceScore.
Variable relevance_analyze :
  pystr → option pystr → option (list pystr) → outcome RelevanceScore.
Variable process : pystr → pystr.
Variable get_text_statistics : pystr → Main.Stats.
Variable sha256 : pystr → string.
Variable format_1f : float → string.
Variable settings : Config.Settings.

(** C1, amended.  For a request that is not served from the cache, if
    one of the three facet analyses raises, [analyze_text] returns no
    result: it fails with [HTTPException(status_code=500)] whose detail
    is the message of a facet that raised.  Failures other than
    validation errors are thus surfaced to the caller. *)
Theorem facet_failure_is_http_500 (app : Main.App) (now later : Qc)
    (input_data : TextInput) :
  let processed_text := process (text input_data) in
  let g := grammar_analyze processed_text in
  let c := coherence_analyze processed_text in
  let r := relevance_analyze processed_text (topic input_data) (topics input_data) in
  let key := Cache.generate_key sha256 (text input_data) (topic input_data) in
  fst (Cache.get (Main.cache_service app) now key) = None →
  raises g ∨ raises c ∨ raises r →
  ∃ msg,
    fst (Main.analyze_text grammar_analyze coherence_analyze relevance_analyze process
           get_text_statistics sha256 format_1f settings app now later input_data)
      = Main.HTTPException 500 msg
    ∧ (g = Raises msg ∨ c = Raises msg ∨ r = Raises msg).
Proof.
  intros processed_text g c r key Hmiss Hfail.
  destruct (gather_raises g c r Hfail) as (msg & Hg & Hwho).
  exists msg. split; [| exact Hwho].
  unfold Main.analyze_text. fold key.
  destruct (Cache.get (Main.cache_service app) now key) as [cached service].
  simpl in Hmiss. subst cached.
  unfold Main.compute. fold processed_text. fold g c r. rewrite Hg. reflexivity.
Qed.

End Handler.

Lemma facet_failure_witness :
  ∃ msg, analyze_with_failing_grammar = Main.HTTPException 500 msg.
Proof.
  destruct (facet_failure_is_http_500 failing_grammar (λ _, Returns calm_coherence)
              (λ _ _ _, Returns Relevance.neutral_score) id (λ _, no_stats)
              (λ _, "key") (λ _, "") Config.settings fresh_app (Q2Qc 0) (Q2Qc 1) request)
    as (msg & Hmsg & _).
  - reflexivity.
  - left. by eexists.
  - exists msg. exact Hmsg.
Defined.

End MainFacts.
